(** * Poster recommendation by mean colour: the code of [main.cpp], embedded

    The program ranks the movies of a catalog by the cosine distance
    between the mean colour of their poster and the mean colour of a
    query poster.  This file embeds its functions
    ([WriteCallback], [loadImageFromURL], [preprocessImage],
    [calculateMeanRGB], [cosineDistance], [loadMoviesFromDatabase],
    [recommendMovies], [main]) and proves what they do.

    Numbers are IEEE-754 values as specified by [SpecFloat]: C++ [float]
    is binary32, [double] is binary64, every operation rounds once to
    nearest-even (no fused multiply-add, no extended precision).

    Of the libraries the program links against, the functions of OpenCV
    it calls ([cv::mean], [Matx::dot], [cv::norm], [cv::resize],
    [cv::imdecode]) are written out after their sources, up to the image
    codecs and the resampling kernel, which are parameters, as are
    libcurl, libpqxx (the connection, the query and the conversions of
    the fields, each of which can raise) and the start of a thread by
    [std::async].  [std::sort] is a parameter that obeys the contract
    of the C++ standard; the sort of GNU libstdc++ is written out and
    shown to obey it.  Memory is not bounded: no allocation fails. *)

From Stdlib Require Import ZArith Floats.SpecFloat Strings.Byte.
From stdpp Require Import base list sets strings sorting.

Open Scope Z_scope.

(** ** Floating point *)

Module Float.

(** C++ [float]: binary32. *)
Definition f32_add := SFadd 24 128.
Definition f32_mul := SFmul 24 128.

(** C++ [double]: binary64. *)
Definition f64_add := SFadd 53 1024.
Definition f64_sub := SFsub 53 1024.
Definition f64_mul := SFmul 53 1024.
Definition f64_div := SFdiv 53 1024.
Definition f64_sqrt := SFsqrt 53 1024.

(** [float] to [double]: every binary32 value is a binary64 value. *)
Definition f32_to_f64 (x : spec_float) : spec_float := x.

(** [double] to [float]: round to nearest, ties to even. *)
Definition f64_to_f32 (x : spec_float) : spec_float :=
  match x with
  | S754_finite s m e => binary_round 24 128 s m e
  | _ => x
  end.

(** [int] to [double]. *)
Definition f64_of_Z (n : Z) : spec_float := binary_normalize 53 1024 n 0 false.

(** The [float] of an integer. *)
Definition f32_of_Z (n : Z) : spec_float := binary_normalize 24 128 n 0 false.

(** The literals [0] and [1.0f]. *)
Definition f_zero : spec_float := S754_zero false.
Definition f32_one : spec_float := binary_normalize 24 128 1 0 false.

(** [x < y] on floating-point operands: false when either is NaN. *)
Definition f_lt (x y : spec_float) : bool := SFltb x y.
Definition f_le (x y : spec_float) : bool := SFleb x y.

Definition is_nan (x : spec_float) : bool :=
  match x with S754_nan => true | _ => false end.

(** Zero or NaN: what is left of a product with a zero. *)
Definition zero_or_nan (x : spec_float) : Prop :=
  match x with S754_zero _ | S754_nan => True | _ => False end.

(** The order of [<]: each value that is no NaN has a key, and [<]
    compares the keys lexicographically. *)
Definition key (x : spec_float) : Z * Z * Z :=
  match x with
  | S754_infinity true => (-2, 0, 0)
  | S754_finite true m e => (-1, - e, Z.neg m)
  | S754_zero _ | S754_nan => (0, 0, 0)
  | S754_finite false m e => (1, e, Z.pos m)
  | S754_infinity false => (2, 0, 0)
  end.

Definition key_lt (a b : Z * Z * Z) : Prop :=
  a.1.1 < b.1.1 \/ (a.1.1 = b.1.1 /\ (a.1.2 < b.1.2 \/ (a.1.2 = b.1.2 /\ a.2 < b.2))).

End Float.
Import Float.

(** ** [cv::Vec3f] and [cv::Scalar] *)

Record Vec3f := mkVec3f { v0 : spec_float; v1 : spec_float; v2 : spec_float }.

Definition zero_vector : Vec3f := mkVec3f (S754_zero false) (S754_zero false) (S754_zero false).

Record Scalar := mkScalar { s0 : spec_float; s1 : spec_float; s2 : spec_float; s3 : spec_float }.

(** [Matx::dot]: [s = 0; for i: s += val[i] * M.val[i]], in [float]. *)
Definition Vec3f_dot (a b : Vec3f) : spec_float :=
  let s := f_zero in
  let s := f32_add s (f32_mul (v0 a) (v0 b)) in
  let s := f32_add s (f32_mul (v1 a) (v1 b)) in
  let s := f32_add s (f32_mul (v2 a) (v2 b)) in
  s.

(** [cv::norm] of a [Matx]: the square root of the sum of squares,
    accumulated in [double]. *)
Definition normL2Sqr (a : Vec3f) : spec_float :=
  let sq (x : spec_float) := let v := f32_to_f64 x in f64_mul v v in
  let s := f_zero in
  let s := f64_add s (sq (v0 a)) in
  let s := f64_add s (sq (v1 a)) in
  let s := f64_add s (sq (v2 a)) in
  s.

Definition cv_norm (a : Vec3f) : spec_float := f64_sqrt (normL2Sqr a).

(** [cosineDistance] (main.cpp:65-67):
    [return 1.0f - (a.dot(b) / (cv::norm(a) * cv::norm(b)));]
    The quotient and the difference are [double] (usual arithmetic
    conversions), the returned value is converted to [float]. *)
Definition cosineDistance (a b : Vec3f) : spec_float :=
  f64_to_f32
    (f64_sub (f32_to_f64 f32_one)
       (f64_div (f32_to_f64 (Vec3f_dot a b)) (f64_mul (cv_norm a) (cv_norm b)))).


(** ** [cv::Mat]

    An 8-bit, 3-channel image as [cv::imdecode(_, cv::IMREAD_COLOR)]
    yields it: [rows * cols] pixels, each stored blue, green, red. *)

Record Pixel := mkPixel { blue : byte; green : byte; red : byte }.

Record Mat := mkMat { rows : Z; cols : Z; data : list Pixel }.

(** [cv::Mat()] *)
Definition Mat_default : Mat := mkMat 0 0 [].

Definition Mat_total (m : Mat) : Z := rows m * cols m.

(** [Mat::empty()]: [data == 0 || total() == 0]. *)
Definition Mat_empty (m : Mat) : bool :=
  match data m with
  | [] => true
  | _ :: _ => Mat_total m =? 0
  end.

(** The elements a matrix iterator visits: none of an empty matrix. *)
Definition Mat_elems (m : Mat) : list Pixel :=
  if Mat_empty m then [] else data m.

Record Size := mkSize { width : Z; height : Z }.

Definition channel_sum (ch : Pixel -> byte) (px : list Pixel) : Z :=
  fold_left (fun acc p => acc + Z.of_N (Byte.to_N (ch p))) px 0.

(** [cv::mean]: per channel, the sum of the visited elements times
    [nz0 ? 1./nz0 : 0], where [nz0] is how many were visited.  The fourth
    channel of a 3-channel image is 0. *)
Definition cv_mean (image : Mat) : Scalar :=
  let px := Mat_elems image in
  let nz0 := Z.of_nat (length px) in
  let alpha := if nz0 =? 0 then f_zero else f64_div (f64_of_Z 1) (f64_of_Z nz0) in
  let mean_of ch := f64_mul (f64_of_Z (channel_sum ch px)) alpha in
  mkScalar (mean_of blue) (mean_of green) (mean_of red) (f64_mul f_zero alpha).

(** [calculateMeanRGB] (main.cpp:59-62):
    [cv::Vec3f(meanScalar[2], meanScalar[1], meanScalar[0])]. *)
Definition calculateMeanRGB (image : Mat) : Vec3f :=
  let meanScalar := cv_mean image in
  mkVec3f (f64_to_f32 (s2 meanScalar)) (f64_to_f32 (s1 meanScalar)) (f64_to_f32 (s0 meanScalar)).

(** The arithmetic mean of one colour channel over all pixels of a
    bitmap, in the words of the specification: the total of the channel
    over every pixel, by the number of pixels.  The total and the
    number are integers; the mean is taken in [double], as the total
    times the reciprocal of the number. *)
Definition channel_total (ch : Pixel -> byte) (image : Mat) : Z :=
  foldr Z.add 0 (map (fun p => Z.of_N (Byte.to_N (ch p))) (data image)).

Definition pixel_count (image : Mat) : Z := Z.of_nat (length (data image)).

Definition channel_mean (ch : Pixel -> byte) (image : Mat) : spec_float :=
  f64_mul (f64_of_Z (channel_total ch image))
          (f64_div (f64_of_Z 1) (f64_of_Z (pixel_count image))).

Definition f32_of_byte (c : byte) : spec_float := f32_of_Z (Z.of_N (Byte.to_N c)).


(** ** [preprocessImage] *)

Section Preprocess.

(** The resampling kernel of [cv::resize]: the pixel of the destination
    at column [x], row [y], for a source and a destination size. *)
Variable resample : Mat -> Size -> Z -> Z -> Pixel.

(** [cv::resize(src, dst, dsize)]: [dst] is created with the size
    [dsize] and filled row by row. *)
Definition cv_resize (src : Mat) (dsize : Size) : Mat :=
  mkMat (height dsize) (width dsize)
    (y ← seqZ 0 (height dsize); x ← seqZ 0 (width dsize); [resample src dsize x y]).

(** [preprocessImage] (main.cpp:49-56). *)
Definition preprocessImage (image : Mat) : Mat :=
  if Mat_empty image then Mat_default
  else
    let resized := cv_resize image (mkSize 67 98) in
    resized.

End Preprocess.

(** ** [Movie] *)

Record Movie := mkMovie {
  id : Z;
  title : string;
  genre : string;
  poster_url : string;
  cover : Mat
}.

(** ** [std::sort]

    The C++ standard fixes what [std::sort(first, last, comp)] does only
    when [comp] is a strict weak ordering of the elements of the range:
    it permutes the range so that no element is less than one before it.
    It leaves the order of equivalent elements open, and the behaviour
    undefined when [comp] is no strict weak ordering.  The range keeps
    its length in any case: the algorithm works through iterators. *)

Section StrictWeakOrder.
Context {A : Type} (comp : A -> A -> bool).

Definition equiv_under (x y : A) : Prop := comp x y = false /\ comp y x = false.

Record strict_weak_order_on (l : list A) : Prop := {
  swo_irrefl : forall x, x ∈ l -> comp x x = false;
  swo_trans : forall x y z, x ∈ l -> y ∈ l -> z ∈ l ->
    comp x y = true -> comp y z = true -> comp x z = true;
  swo_equiv_trans : forall x y z, x ∈ l -> y ∈ l -> z ∈ l ->
    equiv_under x y -> equiv_under y z -> equiv_under x z
}.

(** No element is less than one before it. *)
Definition ascending : list A -> Prop :=
  StronglySorted (fun x y => comp y x = false).
End StrictWeakOrder.

Definition sort_function : Type := forall A : Type, (A -> A -> bool) -> list A -> list A.

Record conforming_sort (std_sort : sort_function) : Prop := {
  std_sort_length : forall A (comp : A -> A -> bool) l,
    length (std_sort A comp l) = length l;
  std_sort_permutation : forall A (comp : A -> A -> bool) l,
    strict_weak_order_on comp l -> Permutation l (std_sort A comp l);
  std_sort_ascending : forall A (comp : A -> A -> bool) l,
    strict_weak_order_on comp l -> ascending comp (std_sort A comp l)
}.

(** *** Insertion sort

    GNU libstdc++ sorts a range of at most 16 elements with
    [__insertion_sort]; run on a range of any length, it is one
    implementation of [std::sort].  The sorted prefix is kept reversed:
    its head is the element just left of the one being inserted. *)

Section InsertionSort.
Context {A : Type} (comp : A -> A -> bool).

(** [__unguarded_linear_insert]: [val] moves left past every element
    it is less than. *)
Fixpoint unguarded_linear_insert (val : A) (left : list A) : list A :=
  match left with
  | next :: left' =>
      if comp val next then next :: unguarded_linear_insert val left'
      else val :: left
  | [] => [val]
  end.

(** One iteration of [__insertion_sort]: an element less than [*first]
    goes to the front ([move_backward]), any other is inserted
    unguarded. *)
Definition insertion_step (sorted : list A) (x : A) : list A :=
  match last sorted with
  | Some first => if comp x first then sorted ++ [x] else unguarded_linear_insert x sorted
  | None => [x]
  end.

Definition insertion_sort (l : list A) : list A :=
  reverse (fold_left insertion_step l []).
End InsertionSort.

(** *** The sort of GNU libstdc++

    [std::sort] of libstdc++ ([bits/stl_algo.h], [bits/stl_heap.h]): an
    introsort that leaves ranges of at most 16 elements to a final
    insertion sort.  A range is a list, an iterator an index into it.
    The scans of the algorithm have no bound check: under a strict weak
    ordering they stop inside the range.  Here a scan that reaches the
    end of the range stops there, where the library would read outside
    the vector. *)

Module Libstdcxx.
Section Sort.
Context {A : Type} (comp : A -> A -> bool).

(** [comp(i, j)] on two iterators. *)
Definition comp_at (v : list A) (i j : nat) : bool :=
  match v !! i, v !! j with
  | Some x, Some y => comp x y
  | _, _ => false
  end.

(** [std::iter_swap(i, j)] *)
Definition iter_swap (i j : nat) (v : list A) : list A :=
  match v !! i, v !! j with
  | Some x, Some y => <[j := x]> (<[i := y]> v)
  | _, _ => v
  end.

(** [__move_median_to_first(result, a, b, c, comp)] *)
Definition move_median_to_first (result a b c : nat) (v : list A) : list A :=
  if comp_at v a b then
    if comp_at v b c then iter_swap result b v
    else if comp_at v a c then iter_swap result c v
    else iter_swap result a v
  else if comp_at v a c then iter_swap result a v
  else if comp_at v b c then iter_swap result c v
  else iter_swap result b v.

(** [while (comp(first, pivot)) ++first;] with [fuel] elements ahead. *)
Fixpoint scan_up (fuel first pivot : nat) (v : list A) : nat :=
  match fuel with
  | O => first
  | S fuel' => if comp_at v first pivot then scan_up fuel' (S first) pivot v else first
  end.

(** [while (comp(pivot, last)) --last;] *)
Fixpoint scan_down (last pivot : nat) (v : list A) : nat :=
  if comp_at v pivot last then
    match last with
    | S last' => scan_down last' pivot v
    | O => O
    end
  else last.

(** [__unguarded_partition(first, last, pivot, comp)]: the cut and the
    range.  Each round moves [first] up by one at least. *)
Fixpoint unguarded_partition (fuel first last pivot : nat) (v : list A) : nat * list A :=
  match fuel with
  | O => (first, v)
  | S fuel' =>
      let first := scan_up (length v - first) first pivot v in
      let last := scan_down (last - 1) pivot v in
      if negb (first <? last)%nat then (first, v)
      else unguarded_partition fuel' (S first) last pivot (iter_swap first last v)
  end.

(** [__unguarded_partition_pivot(first, last, comp)] on the range [v]. *)
Definition unguarded_partition_pivot (v : list A) : nat * list A :=
  let first := 0%nat in
  let last := length v in
  let mid := (first + (last - first) / 2)%nat in
  let v := move_median_to_first first (first + 1) mid (last - 1) v in
  unguarded_partition (length v) (first + 1) last first v.

(** [__push_heap(first, holeIndex, topIndex, value, comp)] *)
Fixpoint push_heap (fuel holeIndex topIndex : nat) (value : A) (v : list A) : list A :=
  let parent := ((holeIndex - 1) / 2)%nat in
  match fuel, v !! parent with
  | S fuel', Some p =>
      if (topIndex <? holeIndex)%nat && comp p value
      then push_heap fuel' parent topIndex value (<[holeIndex := p]> v)
      else <[holeIndex := value]> v
  | _, _ => <[holeIndex := value]> v
  end.

(** The first loop of [__adjust_heap]: the hole moves down to the
    larger child. *)
Fixpoint sift_down (fuel holeIndex secondChild len : nat) (v : list A) : nat * nat * list A :=
  match fuel with
  | S fuel' =>
      if (secondChild <? (len - 1) / 2)%nat then
        let secondChild := (2 * (secondChild + 1))%nat in
        let secondChild :=
          if comp_at v secondChild (secondChild - 1) then (secondChild - 1)%nat
          else secondChild in
        match v !! secondChild with
        | Some c => sift_down fuel' secondChild secondChild len (<[holeIndex := c]> v)
        | None => (holeIndex, secondChild, v)
        end
      else (holeIndex, secondChild, v)
  | O => (holeIndex, secondChild, v)
  end.

(** [__adjust_heap(first, holeIndex, len, value, comp)] *)
Definition adjust_heap (holeIndex len : nat) (value : A) (v : list A) : list A :=
  let topIndex := holeIndex in
  let '(holeIndex, secondChild, v) := sift_down len holeIndex holeIndex len v in
  let '(holeIndex, v) :=
    if Nat.even len && (secondChild =? (len - 2) / 2)%nat then
      let secondChild := (2 * (secondChild + 1))%nat in
      match v !! (secondChild - 1)%nat with
      | Some c => ((secondChild - 1)%nat, <[holeIndex := c]> v)
      | None => (holeIndex, v)
      end
    else (holeIndex, v) in
  push_heap len holeIndex topIndex value v.

(** [__make_heap(first, last, comp)], from [parent] down to 0. *)
Fixpoint make_heap_from (parent len : nat) (v : list A) : list A :=
  let v :=
    match v !! parent with
    | Some value => adjust_heap parent len value v
    | None => v
    end in
  match parent with
  | O => v
  | S parent' => make_heap_from parent' len v
  end.

Definition make_heap (v : list A) : list A :=
  let len := length v in
  if (len <? 2)%nat then v else make_heap_from ((len - 2) / 2) len v.

(** [__pop_heap(first, last, result, comp)] with [last == result]. *)
Definition pop_heap (last : nat) (v : list A) : list A :=
  match v !! last, v !! 0%nat with
  | Some value, Some top => adjust_heap 0 last value (<[last := top]> v)
  | _, _ => v
  end.

(** [__sort_heap(first, last, comp)]: [while (last - first > 1) { --last; __pop_heap(first, last, last, comp); }] *)
Fixpoint sort_heap (last : nat) (v : list A) : list A :=
  match last with
  | S last' => if (1 <? last)%nat then sort_heap last' (pop_heap last' v) else v
  | O => v
  end.

(** [__partial_sort(first, last, last, comp)] *)
Definition partial_sort (v : list A) : list A :=
  sort_heap (length v) (make_heap v).

(** [__introsort_loop(first, last, depth_limit, comp)] on the range [v]. *)
Fixpoint introsort_loop (depth_limit : nat) (v : list A) : list A :=
  if (16 <? length v)%nat then
    match depth_limit with
    | O => partial_sort v
    | S depth_limit' =>
        let '(cut, v) := unguarded_partition_pivot v in
        let right := introsort_loop depth_limit' (drop cut v) in
        let left := introsort_loop depth_limit' (take cut v) in
        left ++ right
    end
  else v.

(** [__final_insertion_sort(first, last, comp)] *)
Definition final_insertion_sort (v : list A) : list A :=
  if (16 <? length v)%nat then
    let sorted := fold_left (insertion_step comp) (take 16 v) [] in
    reverse (fold_left (fun sorted x => unguarded_linear_insert comp x sorted) (drop 16 v) sorted)
  else insertion_sort comp v.

(** [std::__sort(first, last, comp)] *)
Definition sort (v : list A) : list A :=
  match v with
  | [] => v
  | _ :: _ =>
      let depth_limit := (Nat.log2 (length v) * 2)%nat in
      final_insertion_sort (introsort_loop depth_limit v)
  end.
End Sort.
End Libstdcxx.

Definition gnu_sort : sort_function := @Libstdcxx.sort.

(** ** [recommendMovies] *)

(** [static_cast<int>] of a [size_t]: the value modulo 2^32, as a signed
    32-bit integer. *)
Definition static_cast_int (n : Z) : Z := (n + 2^31) mod 2^32 - 2^31.

(** The loop [for (i = 0; i < bound; ++i) recommendations.push_back(distances[i].second)],
    with [k] iterations left to run. *)
Fixpoint push_back_loop (distances : list (spec_float * Movie)) (k i : nat)
    (recommendations : list Movie) : list Movie :=
  match k with
  | O => recommendations
  | S k' =>
      match distances !! i with
      | Some d => push_back_loop distances k' (S i) (recommendations ++ [d.2])
      | None => recommendations
      end
  end.

(** The distance of a movie from the query, as the first loop computes
    it (main.cpp:104-105). *)
Definition distance_to (inputMovie movie : Movie) : spec_float :=
  let inputMeanRGB := calculateMeanRGB (cover inputMovie) in
  let meanRGB := calculateMeanRGB (cover movie) in
  cosineDistance inputMeanRGB meanRGB.

(** The vector [distances] after the first loop (main.cpp:100-107). *)
Definition distances_of (inputMovie : Movie) (movies : list Movie) : list (spec_float * Movie) :=
  let inputMeanRGB := calculateMeanRGB (cover inputMovie) in
  map (fun movie =>
         let meanRGB := calculateMeanRGB (cover movie) in
         let distance := cosineDistance inputMeanRGB meanRGB in
         (distance, movie)) movies.

(** The comparison of the call to [std::sort] (main.cpp:109-111). *)
Definition by_distance (a b : spec_float * Movie) : bool := f_lt a.1 b.1.

Section Recommend.
Variable std_sort : sort_function.

(** The vector [distances] after [std::sort]. *)
Definition ranked (inputMovie : Movie) (movies : list Movie) : list (spec_float * Movie) :=
  std_sort _ by_distance (distances_of inputMovie movies).

(** [recommendMovies] (main.cpp:99-118). *)
Definition recommendMovies (inputMovie : Movie) (movies : list Movie) (topN : Z) : list Movie :=
  let distances := ranked inputMovie movies in
  let bound := Z.min topN (static_cast_int (Z.of_nat (length distances))) in
  push_back_loop distances (Z.to_nat bound) 0 [].
End Recommend.

(** ** The ranking in the words of the specification

    "Computes distance from [query] to every catalog entry's mean color,
    stable-sorts ascending by distance (ties broken by catalog order) and
    returns the first [min(topN, len(catalog))] entries." *)

Section StableSort.
Context {A : Type} (comp : A -> A -> bool).

(** [x], which comes before every element of [l] in the input, goes
    before the first element that is not less than it. *)
Fixpoint stable_insert (x : A) (l : list A) : list A :=
  match l with
  | [] => [x]
  | y :: l' => if comp y x then y :: stable_insert x l' else x :: l
  end.

Definition stable_sort (l : list A) : list A := foldr stable_insert [] l.
End StableSort.

(** The whole catalog in ranked order; [recommend] returns its first
    entries. *)
Definition stable_ranking (query : Movie) (catalog : list Movie) : list Movie :=
  (stable_sort by_distance (distances_of query catalog)).*2.

(** Distances that do not decrease from one to the next. *)
Fixpoint non_decreasing (ds : list spec_float) : bool :=
  match ds with
  | d :: ds' =>
      match ds' with
      | d' :: _ => f_le d d' && non_decreasing ds'
      | [] => true
      end
  | [] => true
  end.

(** No distance is NaN. *)
Definition all_numbers (ds : list spec_float) : bool :=
  forallb (fun d => negb (is_nan d)) ds.

(** No two distances are equal. *)
Fixpoint all_distinct (ds : list spec_float) : bool :=
  match ds with
  | d :: ds' => forallb (fun d' => f_lt d d' || f_lt d' d) ds' && all_distinct ds'
  | [] => true
  end.

(** The degenerate-exclusion policy of the specification: in a ranking,
    no entry with an empty cover stands before an entry whose distance
    is a number. *)
Definition degenerate_never_above (query : Movie) (ranking : list Movie) : Prop :=
  forall i j c a,
    ranking !! i = Some c -> ranking !! j = Some a ->
    Mat_empty (cover c) = true -> is_nan (distance_to query a) = false ->
    (j < i)%nat.

(** A second implementation of [std::sort]: the insertion sort run on
    the reversed range.  It puts equivalent elements in the reverse of
    their input order. *)
Definition reversed_insertion_sort {A} (comp : A -> A -> bool) (l : list A) : list A :=
  insertion_sort comp (reverse l).

(** ** Exceptions

    Every exception the program can meet derives from [std::exception]:
    those of libpqxx and [cv::Exception]. *)

Record std_exception := mkException { what : string }.

Inductive outcome (A : Type) : Type :=
  | Returns (a : A)
  | Throws (e : std_exception).
Arguments Returns {A} a.
Arguments Throws {A} e.

Definition returned {A} (o : outcome A) : bool :=
  match o with Returns _ => true | Throws _ => false end.

(** Statements in sequence: an exception ends the sequence. *)
#[global] Instance outcome_ret : MRet outcome := @Returns.
#[global] Instance outcome_bind : MBind outcome := fun A B f o =>
  match o with
  | Returns a => f a
  | Throws e => Throws e
  end.

(** ** [loadImageFromURL] *)

Definition CURLE_OK : Z := 0.

(** [WriteCallback] (main.cpp:22-25) appends the chunk to the buffer. *)
Definition WriteCallback (buffer contents : list byte) : list byte := buffer ++ contents.

Section Fetch.

(** libcurl: whether [curl_easy_init] hands out a handle for the
    transfer of a URL, and what [curl_easy_perform] does for it: the
    chunks it passes to the write callback and the code it returns. *)
Variable curl_easy_init : string -> bool.
Variable curl_easy_perform : string -> list (list byte) * Z.

(** The image codecs of OpenCV, as [imdecode_] runs them on a buffer
    that holds bytes: the decoded image; nothing, when no codec reads
    the bytes or the codec fails on them, which [imdecode_] catches; or
    the [cv::Exception] that [imdecode_] lets out, from the checks it
    makes outside its [try] blocks (the size of the image that the
    header announces, the allocation of the matrix). *)
Variable decode : list byte -> outcome (option Mat).

(** [cv::imdecode] (imgcodecs, loadsave.cpp): [imdecode_] starts with
    [CV_Assert(!buf.empty())], which raises [cv::Exception] on a buffer
    without bytes (the message is given without the version and the
    source position); then the codecs run; when they give no image,
    the empty matrix is returned. *)
Definition cv_imdecode (buf : list byte) : outcome Mat :=
  match buf with
  | [] => Throws (mkException "(-215:Assertion failed) !buf.empty() in function 'imdecode_'")
  | _ :: _ => image ← decode buf; mret (default Mat_default image)
  end.

(** [loadImageFromURL] (main.cpp:27-46). *)
Definition loadImageFromURL (url : string) : outcome Mat :=
  if curl_easy_init url then
    let '(chunks, res) := curl_easy_perform url in
    let buffer := fold_left WriteCallback chunks [] in
    if res =? CURLE_OK then
      let data := buffer in
      cv_imdecode data
    else Returns Mat_default
  else Returns Mat_default.

End Fetch.

(** ** [loadMoviesFromDatabase] *)

(** libpqxx: a field of a result row is NULL or holds the text that
    the server sent for it. *)
Inductive pqxx_field :=
  | Null
  | Text (text : string).

(** A row of the result of
    [SELECT id, title, genre, poster_link FROM movies]: [row["id"]],
    [row["title"]], [row["genre"]] and [row["poster_link"]]. *)
Record pqxx_row := mk_pqxx_row {
  id_field : pqxx_field;
  title_field : pqxx_field;
  genre_field : pqxx_field;
  poster_link_field : pqxx_field
}.

(** The values of the four fields of a row, once [as<int>()] and
    [as<std::string>()] have converted them: a row whose conversions
    all succeed. *)
Record Row := mkRow {
  row_id : Z;
  row_title : string;
  row_genre : string;
  row_poster_link : string
}.

(** A [std::future<cv::Mat>] made by [std::async(std::launch::async, ...)]:
    the task is running on the URL it was given, or has finished with a
    value or an exception. *)
Inductive Future :=
  | Running (url : string)
  | Ready (o : outcome Mat).

Definition is_ready (f : Future) : bool :=
  match f with Ready _ => true | Running _ => false end.

Definition set_cover (c : Mat) (m : Movie) : Movie :=
  mkMovie (id m) (title m) (genre m) (poster_url m) c.

Section Catalog.

Variable curl_easy_init : string -> bool.
Variable curl_easy_perform : string -> list (list byte) * Z.
Variable decode : list byte -> outcome (option Mat).
Variable resample : Mat -> Size -> Z -> Z -> Pixel.

(** libpqxx: opening the connection, and starting the transaction and
    running the query, either succeed or raise. *)
Variable connection : Type.
Variable pqxx_connection : string -> outcome connection.
Variable pqxx_exec : connection -> string -> outcome (list pqxx_row).

(** libpqxx: [field::as<int>()] and [field::as<std::string>()] return
    the value of a field or raise [pqxx::conversion_error]: on a NULL
    field, on a text that is no number, on a number outside the range
    of [int].  Nothing here depends on the value returned being in
    that range. *)
Variable as_int : pqxx_field -> outcome Z.
Variable as_string : pqxx_field -> outcome string.

(** [std::async(std::launch::async, ...)] when [n] tasks have been
    started: the thread of the task is started, or [std::system_error]
    is raised when the system has no thread to give. *)
Variable std_async : nat -> outcome unit.

Abbreviation fetch := (loadImageFromURL curl_easy_init curl_easy_perform decode).
Abbreviation normalize := (preprocessImage resample).

(** The task of the future at index [j] finishes. *)
Definition complete (j : nat) (futures : list Future) : list Future :=
  match futures !! j with
  | Some (Running url) => <[j := Ready (fetch url)]> futures
  | _ => futures
  end.

(** [futures[i].get()]: waits until the task has finished.  [sched] is
    the order in which the tasks still running finish; when the awaited
    task is not in it, [get] never returns. *)
Fixpoint future_get (i : nat) (futures : list Future) (sched : list nat)
    : option (outcome Mat * list Future * list nat) :=
  match futures !! i with
  | Some (Ready o) => Some (o, futures, sched)
  | _ =>
      match sched with
      | j :: sched' => future_get i (complete j futures) sched'
      | [] => None
      end
  end.

(** The body of the first loop (main.cpp:79-86) on one row: the four
    conversions, in the order of the code, the launch of the task, and
    the two [push_back]s.  An exception leaves before anything is
    pushed. *)
Definition launch_step (movies : list Movie) (futures : list Future) (row : pqxx_row)
    : outcome (list Movie * list Future) :=
  movie_id ← as_int (id_field row);
  movie_title ← as_string (title_field row);
  movie_genre ← as_string (genre_field row);
  movie_poster_url ← as_string (poster_link_field row);
  let movie := mkMovie movie_id movie_title movie_genre movie_poster_url Mat_default in
  _ ← std_async (length futures);
  mret (movies ++ [movie], futures ++ [Running (poster_url movie)]).

(** The first loop (main.cpp:78-87): the two vectors when the loop
    ends, and how it ends.  An exception ends it at the row that
    raised, with the movies and the futures of the rows before. *)
Fixpoint launch_loop (result : list pqxx_row) (movies : list Movie) (futures : list Future)
    : list Movie * list Future * outcome unit :=
  match result with
  | [] => (movies, futures, Returns tt)
  | row :: result' =>
      match launch_step movies futures row with
      | Returns (movies', futures') => launch_loop result' movies' futures'
      | Throws e => (movies, futures, Throws e)
      end
  end.

(** The second loop (main.cpp:89-91), with [k] iterations left: the
    vector [movies] as the loop leaves it, how the loop ends, and the
    futures and the schedule at that point. *)
Fixpoint join_loop (k i : nat) (movies : list Movie) (futures : list Future)
    (sched : list nat) : option (list Movie * outcome unit * list Future * list nat) :=
  match k with
  | O => Some (movies, Returns tt, futures, sched)
  | S k' =>
      match future_get i futures sched with
      | None => None
      | Some (Throws e, futures', sched') => Some (movies, Throws e, futures', sched')
      | Some (Returns image, futures', sched') =>
          join_loop k' (S i) (alter (set_cover (normalize image)) i movies) futures' sched'
      end
  end.

(** The destructor of [futures]: the future of a [std::async] task
    waits for its task; it returns when every task finishes. *)
Definition futures_destroyed (futures : list Future) (sched : list nat) : bool :=
  forallb is_ready (fold_left (fun fs j => complete j fs) sched futures).

(** The four conversions of a row, in the order of the code. *)
Definition read_row (row : pqxx_row) : outcome Row :=
  movie_id ← as_int (id_field row);
  movie_title ← as_string (title_field row);
  movie_genre ← as_string (genre_field row);
  movie_poster_url ← as_string (poster_link_field row);
  mret (mkRow movie_id movie_title movie_genre movie_poster_url).

(** The rows that the first loop gets through when [n] tasks have been
    started before it: each has its four fields converted and its task
    started; and how the loop ends. *)
Fixpoint launched_rows (n : nat) (result : list pqxx_row) : list Row * outcome unit :=
  match result with
  | [] => ([], Returns tt)
  | raw :: result' =>
      match row ← read_row raw; _ ← std_async n; mret row with
      | Throws e => ([], Throws e)
      | Returns row =>
          let '(rows, ending) := launched_rows (S n) result' in
          (row :: rows, ending)
      end
  end.

(** The catalog in the words of the specification: the entries in row
    order, each with the normalized result of fetching its own poster. *)
Definition entry_of (row : Row) : Movie :=
  mkMovie (row_id row) (row_title row) (row_genre row) (row_poster_link row) Mat_default.

Definition fetched (url : string) : Mat :=
  match fetch url with Returns image => image | Throws _ => Mat_default end.

Definition positional_catalog (result : list Row) : list Movie :=
  map (fun row => set_cover (normalize (fetched (row_poster_link row))) (entry_of row)) result.

(** What the second loop makes of the movies that are still to be
    joined: covers are attached up to the first fetch that raised. *)
Fixpoint attach_covers (movies : list Movie) : list Movie * outcome unit :=
  match movies with
  | [] => ([], Returns tt)
  | m :: rest =>
      match fetch (poster_url m) with
      | Throws e => (m :: rest, Throws e)
      | Returns image =>
          let '(rest', ending) := attach_covers rest in
          (set_cover (normalize image) m :: rest', ending)
      end
  end.

(** Each future belongs to the task of one URL. *)
Definition futures_of (urls : list string) (futures : list Future) : Prop :=
  Forall2 (fun url f => f = Running url \/ f = Ready (fetch url)) urls futures.

(** Each of the first [n] tasks has finished or is in the schedule. *)
Definition all_finish (n : nat) (futures : list Future) (sched : list nat) : Prop :=
  forall i, (i < n)%nat -> i ∈ sched \/ exists o, futures !! i = Some (Ready o).

(** [std::cerr << "Исключение: " << e.what() << std::endl] *)
Definition report (e : std_exception) : string := "Исключение: " +:+ what e.

Definition select_movies : string := "SELECT id, title, genre, poster_link FROM movies;".

(** [loadMoviesFromDatabase] (main.cpp:70-96): the vector returned and
    the lines written to [std::cerr]; nothing when a wait never ends.
    An exception of the first loop leaves the [try] block through the
    destructor of [futures], which waits for the tasks started so
    far. *)
Definition loadMoviesFromDatabase (connectionString : string) (sched : list nat)
    : option (list Movie * list string) :=
  let movies := [] in
  match pqxx_connection connectionString with
  | Throws e => Some (movies, [report e])
  | Returns conn =>
      match pqxx_exec conn select_movies with
      | Throws e => Some (movies, [report e])
      | Returns result =>
          let '(movies, futures, launched) := launch_loop result movies [] in
          match launched with
          | Throws e =>
              if futures_destroyed futures sched then Some (movies, [report e]) else None
          | Returns _ =>
              match join_loop (length movies) 0 movies futures sched with
              | None => None
              | Some (movies, ending, futures, sched) =>
                  if futures_destroyed futures sched then
                    match ending with
                    | Returns _ => Some (movies, [])
                    | Throws e => Some (movies, [report e])
                    end
                  else None
              end
          end
      end
  end.

(** What the function returns when every wait ends, in the words of the
    two loops run one after the other: the movies of the rows that the
    first loop got through, with the covers that the second loop
    attached, and the line of the exception that ended either loop. *)
Definition loaded (result : list pqxx_row) : list Movie * list string :=
  let '(rows, launched) := launched_rows 0 result in
  match launched with
  | Throws e => (entry_of <$> rows, [report e])
  | Returns _ =>
      let '(movies, ending) := attach_covers (entry_of <$> rows) in
      (movies, match ending with Returns _ => [] | Throws e => [report e] end)
  end.

End Catalog.

(** ** Degenerate colours, shapes and rows *)

(** A mean colour without direction: each component is a zero or NaN. *)
Definition degenerate (a : Vec3f) : Prop :=
  zero_or_nan (v0 a) /\ zero_or_nan (v1 a) /\ zero_or_nan (v2 a).

Definition black : Pixel := mkPixel Byte.x00 Byte.x00 Byte.x00.

(** The two shapes of a normalized image: empty, or 98 rows of 67
    pixels. *)
Definition normalized_shape (c : Mat) : Prop :=
  c = Mat_default
  \/ (rows c = 98 /\ cols c = 67 /\ length (data c) = Z.to_nat (98 * 67) /\ Mat_empty c = false).

(** The fields of a movie that come from its row. *)
Definition of_row (m : Movie) (row : Row) : Prop :=
  id m = row_id row /\ title m = row_title row /\ genre m = row_genre row
  /\ poster_url m = row_poster_link row.

(** ** [main] *)

(** [std::getline(std::cin, s)] into a string that is still empty: the
    next line of the input, without its newline; at the end of the
    input the string stays empty. *)
Definition getline (cin : list string) : string * list string :=
  match cin with
  | line :: cin' => (line, cin')
  | [] => ("", [])
  end.

(** The newline that [std::endl] writes. *)
Definition endl : string := String (Ascii.ascii_of_nat 10) "".

(** How the process ends: [main] returns a status, or an exception
    leaves [main] and [std::terminate] is called. *)
Inductive Ending :=
  | Exit (status : Z)
  | Terminate (e : std_exception).

(** What a run leaves behind: the strings the program writes to
    [std::cout], one for each statement that writes; the lines it
    writes to [std::cerr], each of them ended by [std::endl]; and how
    the process ended. *)
Record Run := mkRun { cout : list string; cerr : list string; ended : Ending }.

Definition title_prompt : string := "Введите название фильма: ".
Definition poster_prompt : string := "Введите URL обложки фильма: ".
Definition user_image_error : string :=
  "Ошибка: не удалось загрузить изображение пользователя.".
Definition recommended_header : string := "Рекомендованные фильмы:" +:+ endl.

(** The body of the last loop (main.cpp:140-142). *)
Definition recommendation_line (movie : Movie) : string :=
  "Название: " +:+ title movie +:+ ", Жанр: " +:+ genre movie
  +:+ ", Постер: " +:+ poster_url movie +:+ endl.

Section Main.

Variable curl_easy_init : string -> bool.
Variable curl_easy_perform : string -> list (list byte) * Z.
Variable decode : list byte -> outcome (option Mat).
Variable resample : Mat -> Size -> Z -> Z -> Pixel.
Variable connection : Type.
Variable pqxx_connection : string -> outcome connection.
Variable pqxx_exec : connection -> string -> outcome (list pqxx_row).
Variable as_int : pqxx_field -> outcome Z.
Variable as_string : pqxx_field -> outcome string.
Variable std_async : nat -> outcome unit.
Variable std_sort : sort_function.

(** [main] (main.cpp:120-145) on the lines of [std::cin], with the
    order in which the fetches of the catalog finish; nothing when the
    catalog never gets loaded.  [recommendMovies] is called with its
    default [topN = 5]. *)
Definition main (cin : list string) (sched : list nat) : option Run :=
  let connectionString := "dbname=image_rec user=postgres password=123123" in
  match loadMoviesFromDatabase curl_easy_init curl_easy_perform decode resample
          connection pqxx_connection pqxx_exec as_int as_string std_async
          connectionString sched with
  | None => None
  | Some (movies, cerr) =>
      let cout := [title_prompt] in
      let '(userTitle, cin) := getline cin in
      let cout := cout ++ [poster_prompt] in
      let '(userPosterURL, cin) := getline cin in
      match loadImageFromURL curl_easy_init curl_easy_perform decode userPosterURL with
      | Throws e => Some (mkRun cout cerr (Terminate e))
      | Returns image =>
          let userCover := preprocessImage resample image in
          if Mat_empty userCover then
            Some (mkRun cout (cerr ++ [user_image_error]) (Exit 1))
          else
            let userMovie := mkMovie 0 userTitle "N/A" userPosterURL userCover in
            let recommendations := recommendMovies std_sort userMovie movies 5 in
            let cout := cout ++ [recommended_header] in
            let cout := cout ++ map recommendation_line recommendations in
            Some (mkRun cout cerr (Exit 0))
      end
  end.

End Main.

(** ** Example data *)

(** A cover of the canonical resolution filled with one colour. *)
Definition solid_cover (r g b : byte) : Mat :=
  mkMat 98 67 (replicate (Z.to_nat (98 * 67)) (mkPixel b g r)).

Definition red_cover : Mat := solid_cover Byte.xff Byte.x00 Byte.x00.
Definition blue_cover : Mat := solid_cover Byte.x00 Byte.x00 Byte.xff.
Definition orange_cover : Mat := solid_cover Byte.xff Byte.x80 Byte.x00.

Definition movie_red : Movie := mkMovie 1 "Red" "drama" "http://posters.example/red.png" red_cover.
Definition movie_blue : Movie := mkMovie 2 "Blue" "comedy" "http://posters.example/blue.png" blue_cover.
Definition movie_orange : Movie := mkMovie 3 "Orange" "drama" "http://posters.example/orange.png" orange_cover.
(** A movie whose poster could not be fetched. *)
Definition movie_failed : Movie := mkMovie 4 "Lost" "drama" "http://posters.example/gone.png" Mat_default.
(** A second movie with the poster of [movie_red]. *)
Definition movie_red_twin : Movie := mkMovie 5 "Red again" "drama" "http://posters.example/red2.png" red_cover.

(** Seventeen movies with the poster of the query, numbered 1 to 17. *)
Definition red_sequels : list Movie :=
  (fun i => mkMovie i "Red" "drama" "http://posters.example/red.png" red_cover) <$> seqZ 1 17.

(** The query entry as [main] builds it. *)
Definition query_red : Movie := mkMovie 0 "query" "N/A" "http://posters.example/query.png" red_cover.

(** A catalog of 2^31 entries. *)
Definition huge_catalog : list Movie := replicate (Z.to_nat (2^31)) movie_red.

(** The mean colour of a grey image. *)
Definition grey : Vec3f := mkVec3f f32_one f32_one f32_one.


(** An HTTP server: one poster, one answer without a body, one page that
    is no image, and a host that does not resolve. *)
Definition red_png : list byte :=
  [Byte.x89; Byte.x50; Byte.x4e; Byte.x47; Byte.x0d; Byte.x0a; Byte.x1a; Byte.x0a].
Definition not_found_page : list byte :=
  [Byte.x3c; Byte.x68; Byte.x74; Byte.x6d; Byte.x6c; Byte.x3e].
(** A header that announces an image of 2^31 - 1 columns. *)
Definition oversized_png : list byte :=
  [Byte.x89; Byte.x50; Byte.x4e; Byte.x47; Byte.x7f; Byte.xff; Byte.xff; Byte.xff].

Definition CURLE_COULDNT_RESOLVE_HOST : Z := 6.

Definition example_curl_easy_init (url : string) : bool := true.

Definition example_curl_easy_perform (url : string) : list (list byte) * Z :=
  if String.eqb url "http://posters.example/red.png" then
    ([take 3 red_png; drop 3 red_png], CURLE_OK)
  else if String.eqb url "http://posters.example/moved.png" then ([], CURLE_OK)
  else if String.eqb url "http://nowhere.example/x.png" then ([], CURLE_COULDNT_RESOLVE_HOST)
  else if String.eqb url "http://posters.example/oversized.png" then ([oversized_png], CURLE_OK)
  else ([not_found_page], CURLE_OK).

(** The decoded poster: 2 by 1, red. *)
Definition red_source : Mat :=
  mkMat 1 2 [mkPixel Byte.x00 Byte.x00 Byte.xff; mkPixel Byte.x00 Byte.x00 Byte.xff].

(** The poster decodes; the header that announces too wide an image
    fails the check of the size; nothing else is an image. *)
Definition example_decode (buf : list byte) : outcome (option Mat) :=
  if decide (Byte.to_N <$> buf = Byte.to_N <$> red_png) then Returns (Some red_source)
  else if decide (Byte.to_N <$> buf = Byte.to_N <$> oversized_png) then
    Throws (mkException
              "(-215:Assertion failed) size.width <= CV_IO_MAX_IMAGE_WIDTH in function 'validateInputImageSize'")
  else Returns None.

(** Nearest-neighbour resampling. *)
Definition example_resample (src : Mat) (dsize : Size) (x y : Z) : Pixel :=
  let sx := x * cols src / width dsize in
  let sy := y * rows src / height dsize in
  default (mkPixel Byte.x00 Byte.x00 Byte.x00) (data src !! Z.to_nat (sy * cols src + sx)).

(** The conversions of libpqxx: a NULL field raises; [as<int>()] reads
    a text of decimal digits whose value is in the range of [int]. *)
Fixpoint decimal (digits : string) (n : Z) : option Z :=
  match digits with
  | EmptyString => Some n
  | String c digits' =>
      let d := Z.of_nat (Ascii.nat_of_ascii c) - 48 in
      if (0 <=? d) && (d <=? 9) then decimal digits' (10 * n + d) else None
  end.

Definition example_as_int (field : pqxx_field) : outcome Z :=
  match field with
  | Null => Throws (mkException "Attempt to convert null to int.")
  | Text EmptyString => Throws (mkException "Could not convert string to integer: ''.")
  | Text text =>
      match decimal text 0 with
      | Some n =>
          if n <? 2^31 then Returns n
          else Throws (mkException "Could not convert string to integer: value out of range.")
      | None => Throws (mkException ("Could not convert string to integer: '" +:+ text +:+ "'."))
      end
  end.

Definition example_as_string (field : pqxx_field) : outcome string :=
  match field with
  | Null => Throws (mkException "Attempt to convert null to std::string.")
  | Text text => Returns text
  end.

(** A system that starts every thread, and one that has two threads to
    give. *)
Definition example_std_async (n : nat) : outcome unit := Returns tt.

Definition two_threads_std_async (n : nat) : outcome unit :=
  if (n <? 2)%nat then Returns tt
  else Throws (mkException "Resource temporarily unavailable").

(** A row without NULL, as the server sends it. *)
Definition text_row (id title genre poster_link : string) : pqxx_row :=
  mk_pqxx_row (Text id) (Text title) (Text genre) (Text poster_link).

(** A store that is reachable under one connection string only. *)
Definition example_result : list pqxx_row :=
  [text_row "1" "Moved" "drama" "http://posters.example/moved.png";
   text_row "2" "Red" "drama" "http://posters.example/red.png"].

Definition example_rows : list Row :=
  [mkRow 1 "Moved" "drama" "http://posters.example/moved.png";
   mkRow 2 "Red" "drama" "http://posters.example/red.png"].

Definition example_pqxx_connection (connectionString : string) : outcome unit :=
  if String.eqb connectionString "dbname=image_rec user=postgres password=123123"
  then Returns tt
  else Throws (mkException "connection to server failed: Connection refused").

Definition example_pqxx_exec (conn : unit) (query : string) : outcome (list pqxx_row) :=
  Returns example_result.

Definition example_load : string -> list nat -> option (list Movie * list string) :=
  loadMoviesFromDatabase example_curl_easy_init example_curl_easy_perform example_decode
    example_resample unit example_pqxx_connection example_pqxx_exec
    example_as_int example_as_string example_std_async.

(** The same server sending the poster in one piece. *)
Definition unchunked_curl_easy_perform (url : string) : list (list byte) * Z :=
  (fun '(chunks, res) => ([concat chunks], res)) (example_curl_easy_perform url).

(** A store with two movies whose posters answer with a body. *)
Definition poster_result : list pqxx_row :=
  [text_row "7" "Crimson" "drama" "http://posters.example/red.png";
   text_row "8" "Page" "comedy" "http://posters.example/none.png"].

Definition poster_rows : list Row :=
  [mkRow 7 "Crimson" "drama" "http://posters.example/red.png";
   mkRow 8 "Page" "comedy" "http://posters.example/none.png"].

Definition poster_pqxx_exec (conn : unit) (query : string) : outcome (list pqxx_row) :=
  Returns poster_result.


(** A store whose second movie has the poster that answers without a
    body. *)
Definition mixed_result : list pqxx_row :=
  [text_row "7" "Crimson" "drama" "http://posters.example/red.png";
   text_row "1" "Moved" "drama" "http://posters.example/moved.png";
   text_row "2" "Red" "drama" "http://posters.example/red.png"].

Definition mixed_rows : list Row :=
  [mkRow 7 "Crimson" "drama" "http://posters.example/red.png";
   mkRow 1 "Moved" "drama" "http://posters.example/moved.png";
   mkRow 2 "Red" "drama" "http://posters.example/red.png"].

Definition mixed_pqxx_exec (conn : unit) (query : string) : outcome (list pqxx_row) :=
  Returns mixed_result.

Definition mixed_load : string -> list nat -> option (list Movie * list string) :=
  loadMoviesFromDatabase example_curl_easy_init example_curl_easy_perform example_decode
    example_resample unit example_pqxx_connection mixed_pqxx_exec
    example_as_int example_as_string example_std_async.

(** A store whose second movie has no genre: the field is NULL. *)
Definition null_result : list pqxx_row :=
  [text_row "7" "Crimson" "drama" "http://posters.example/red.png";
   mk_pqxx_row (Text "9") (Text "Untitled") Null (Text "http://posters.example/red.png");
   text_row "2" "Red" "drama" "http://posters.example/red.png"].

Definition null_pqxx_exec (conn : unit) (query : string) : outcome (list pqxx_row) :=
  Returns null_result.

Definition null_load : string -> list nat -> option (list Movie * list string) :=
  loadMoviesFromDatabase example_curl_easy_init example_curl_easy_perform example_decode
    example_resample unit example_pqxx_connection null_pqxx_exec
    example_as_int example_as_string example_std_async.

(** A store with one movie. *)
Definition red_result : list pqxx_row :=
  [text_row "7" "Crimson" "drama" "http://posters.example/red.png"].

Definition red_rows : list Row :=
  [mkRow 7 "Crimson" "drama" "http://posters.example/red.png"].

Definition red_pqxx_exec (conn : unit) (query : string) : outcome (list pqxx_row) :=
  Returns red_result.

(** The program linked against the sort of libstdc++, run against the
    three stores and against a server that refuses connections. *)
Definition example_main : list string -> list nat -> option Run :=
  main example_curl_easy_init example_curl_easy_perform example_decode
    example_resample unit example_pqxx_connection example_pqxx_exec
    example_as_int example_as_string example_std_async gnu_sort.

Definition red_main : list string -> list nat -> option Run :=
  main example_curl_easy_init example_curl_easy_perform example_decode
    example_resample unit example_pqxx_connection red_pqxx_exec
    example_as_int example_as_string example_std_async gnu_sort.

Definition refused_pqxx_connection (connectionString : string) : outcome unit :=
  Throws (mkException "connection to server failed: Connection refused").

Definition refused_main : list string -> list nat -> option Run :=
  main example_curl_easy_init example_curl_easy_perform example_decode
    example_resample unit refused_pqxx_connection example_pqxx_exec
    example_as_int example_as_string example_std_async gnu_sort.

(** What the user types: a title and the URL of a poster.  With the
    store of one movie and the red poster, the run recommends that
    movie. *)
Definition red_input : list string := ["Film"; "http://posters.example/red.png"].

Definition crimson_run : Run :=
  mkRun [title_prompt; poster_prompt; recommended_header;
         "Название: Crimson, Жанр: drama, Постер: http://posters.example/red.png" +:+ endl]
        [] (Exit 0).

(** A black cover of three pixels. *)
Definition black_cover : Mat := mkMat 1 3 [black; black; black].
Definition movie_black : Movie := mkMovie 6 "Night" "noir" "http://posters.example/night.png" black_cover.

(** A poster of two colours, and its mirror image. *)
Definition two_tone : Mat :=
  mkMat 1 2 [mkPixel Byte.x00 Byte.x00 Byte.xff; mkPixel Byte.xff Byte.x00 Byte.x00].
Definition two_tone_mirrored : Mat :=
  mkMat 1 2 [mkPixel Byte.xff Byte.x00 Byte.x00; mkPixel Byte.x00 Byte.x00 Byte.xff].


(** * Proofs *)

(** ** Floating-point facts *)

Section FloatFacts.
Variables prec emax : Z.


Lemma zero_or_nan_mul_r x s : zero_or_nan (SFmul prec emax x (S754_zero s)).
Proof. by destruct x. Qed.

Lemma zero_or_nan_mul_l x s : zero_or_nan (SFmul prec emax (S754_zero s) x).
Proof. by destruct x. Qed.

Lemma zero_or_nan_add x y :
  zero_or_nan x -> zero_or_nan y -> zero_or_nan (SFadd prec emax x y).
Proof. destruct x as [[]| | |], y as [[]| | |]; done. Qed.

Lemma SFdiv_zero_or_nan x y :
  zero_or_nan x -> zero_or_nan y -> SFdiv prec emax x y = S754_nan.
Proof. destruct x, y; done. Qed.

Lemma SFsub_nan_r x : SFsub prec emax x S754_nan = S754_nan.
Proof. by destruct x. Qed.
End FloatFacts.

(** *** The order of [<] *)

Lemma SFcompare_key x y :
  is_nan x = false -> is_nan y = false ->
  match SFcompare x y with
  | Some Lt => key_lt (key x) (key y)
  | Some Eq => key x = key y
  | Some Gt => key_lt (key y) (key x)
  | None => False
  end.
Proof.
  unfold key_lt.
  destruct x as [sx|[]| |[] mx ex], y as [sy|[]| |[] my ey]; simpl; try done;
    intros _ _; try lia;
    destruct (Z.compare_spec ex ey); try lia; subst;
    change (Pos.compare_cont Eq mx my) with (mx ?= my)%positive;
    destruct (Pos.compare_spec mx my); simpl; subst; try done; lia.
Qed.

Lemma f_lt_key x y :
  is_nan x = false -> is_nan y = false -> f_lt x y = true <-> key_lt (key x) (key y).
Proof.
  intros Hx Hy. unfold f_lt, SFltb.
  pose proof (SFcompare_key x y Hx Hy) as H.
  destruct (SFcompare x y) as [[]|]; unfold key_lt in *; split; try done;
    try rewrite H; lia.
Qed.

Lemma f_lt_false_key x y :
  is_nan x = false -> is_nan y = false -> f_lt x y = false <-> ~ key_lt (key x) (key y).
Proof.
  intros Hx Hy. rewrite <- f_lt_key by done. by destruct (f_lt x y).
Qed.

Lemma f_le_key x y :
  is_nan x = false -> is_nan y = false -> f_le x y = true <-> ~ key_lt (key y) (key x).
Proof.
  intros Hx Hy. unfold f_le, SFleb.
  pose proof (SFcompare_key x y Hx Hy) as H.
  destruct (SFcompare x y) as [[]|]; unfold key_lt in *; split; try done;
    try rewrite H; lia.
Qed.

(** Without NaN, [x <= y] says that [y < x] is false. *)
Lemma f_le_not_lt x y :
  is_nan x = false -> is_nan y = false -> f_le x y = true <-> f_lt y x = false.
Proof. intros Hx Hy. by rewrite f_le_key, f_lt_false_key. Qed.

(** A comparison with NaN is false. *)
Lemma f_lt_nan_l y : f_lt S754_nan y = false.
Proof. done. Qed.
Lemma f_lt_nan_r x : f_lt x S754_nan = false.
Proof. by destruct x. Qed.


(** ** Strict weak orderings *)

Section StrictWeakOrderFacts.
Context {A : Type} (comp : A -> A -> bool) (l : list A).
Hypothesis Hswo : strict_weak_order_on comp l.

Lemma swo_asym x y : x ∈ l -> y ∈ l -> comp x y = true -> comp y x = false.
Proof.
  intros Hx Hy Hxy. destruct (comp y x) eqn:Hyx; [|done].
  rewrite <- (swo_irrefl _ _ Hswo x Hx). symmetry.
  by apply (swo_trans _ _ Hswo x y x).
Qed.

(** An element that is not below [y] is not below anything [y] is not
    below. *)
Lemma swo_not_below x y z :
  x ∈ l -> y ∈ l -> z ∈ l ->
  comp x y = false -> comp y z = false -> comp x z = false.
Proof.
  intros Hx Hy Hz Hxy Hyz. destruct (comp x z) eqn:Hxz; [|done]. exfalso.
  destruct (comp y x) eqn:Hyx.
  { rewrite (swo_trans _ _ Hswo y x z) in Hyz; done. }
  destruct (comp z y) eqn:Hzy.
  { rewrite (swo_trans _ _ Hswo x z y) in Hxy; done. }
  destruct (swo_equiv_trans _ _ Hswo x y z) as [E _]; try done.
  congruence.
Qed.

Lemma strict_weak_order_on_subseteq k : k ⊆ l -> strict_weak_order_on comp k.
Proof.
  intros Hk. destruct Hswo as [H1 H2 H3]. split; eauto 10.
Qed.
End StrictWeakOrderFacts.

Lemma strict_weak_order_on_perm {A} (comp : A -> A -> bool) l k :
  l ≡ₚ k -> strict_weak_order_on comp l -> strict_weak_order_on comp k.
Proof.
  intros E Hl. apply (strict_weak_order_on_subseteq comp l Hl).
  intros x Hx. by rewrite E.
Qed.

(** ** The insertion sort sorts *)

Section InsertionSortFacts.
Context {A : Type} (comp : A -> A -> bool).

Abbreviation descending := (StronglySorted (fun x y : A => comp x y = false)).

Lemma unguarded_linear_insert_perm val left :
  unguarded_linear_insert comp val left ≡ₚ val :: left.
Proof.
  induction left as [|next left IH]; simpl; [done|].
  destruct (comp val next); [|done].
  rewrite IH. apply Permutation_swap.
Qed.

Lemma insertion_step_perm sorted x : insertion_step comp sorted x ≡ₚ x :: sorted.
Proof.
  unfold insertion_step. destruct (last sorted) as [first|] eqn:E.
  - destruct (comp x first).
    + by rewrite Permutation_app_comm.
    + apply unguarded_linear_insert_perm.
  - apply last_None in E. by subst.
Qed.

Lemma fold_insertion_step_perm l acc :
  fold_left (insertion_step comp) l acc ≡ₚ l ++ acc.
Proof.
  revert acc. induction l as [|x l IH]; intros acc; simpl; [done|].
  rewrite IH, insertion_step_perm. by rewrite Permutation_middle.
Qed.

Lemma insertion_sort_perm l : l ≡ₚ insertion_sort comp l.
Proof.
  unfold insertion_sort.
  by rewrite reverse_Permutation, fold_insertion_step_perm, app_nil_r.
Qed.

Lemma insertion_sort_length l : length (insertion_sort comp l) = length l.
Proof. symmetry. apply Permutation_length, insertion_sort_perm. Qed.

Section Sorted.
Variable l0 : list A.
Hypothesis Hswo : strict_weak_order_on comp l0.

Lemma unguarded_linear_insert_descending val left :
  val ∈ l0 -> left ⊆ l0 -> descending left ->
  descending (unguarded_linear_insert comp val left).
Proof.
  intros Hval. induction left as [|next left IH]; intros Hsub Hd; simpl.
  { repeat constructor. }
  apply StronglySorted_cons in Hd as [Hnext Hd].
  assert (next ∈ l0) as Hn by (apply Hsub; left).
  assert (left ⊆ l0) as Hsub' by (intros e He; apply Hsub; by right).
  rewrite Forall_forall in Hnext.
  destruct (comp val next) eqn:Hc.
  - apply StronglySorted_cons. split; [|by apply IH].
    apply Forall_forall. intros e He.
    rewrite unguarded_linear_insert_perm in He.
    apply elem_of_cons in He as [->|He]; [|by apply Hnext].
    by apply (swo_asym comp l0 Hswo).
  - apply StronglySorted_cons. split.
    + apply Forall_cons. split; [done|].
      apply Forall_forall. intros e He.
      apply (swo_not_below comp l0 Hswo val next e); auto.
    + apply StronglySorted_cons. by rewrite Forall_forall.
Qed.

Lemma insertion_step_descending sorted x :
  x ∈ l0 -> sorted ⊆ l0 -> descending sorted ->
  descending (insertion_step comp sorted x).
Proof.
  intros Hx Hsub Hd. unfold insertion_step.
  destruct (last sorted) as [first|] eqn:E; [|repeat constructor].
  destruct (comp x first) eqn:Hc.
  - apply StronglySorted_app_2; [|done|repeat constructor].
    intros e ? He ->%list_elem_of_singleton.
    apply last_Some in E as [pre ->].
    assert (first ∈ l0) as Hf by (apply Hsub, elem_of_app; right; left).
    assert (comp e first = false) as Hef.
    { apply elem_of_app in He as [He| ->%list_elem_of_singleton].
      - apply (StronglySorted_app_1_elem_of _ _ _ _ _ Hd He). left.
      - by apply (swo_irrefl _ _ Hswo). }
    destruct (comp e x) eqn:Hex; [|done].
    rewrite (swo_trans _ _ Hswo e x first) in Hef; auto.
  - by apply unguarded_linear_insert_descending.
Qed.

Lemma fold_insertion_step_descending l acc :
  l ⊆ l0 -> acc ⊆ l0 -> descending acc ->
  descending (fold_left (insertion_step comp) l acc).
Proof.
  revert acc. induction l as [|x l IH]; intros acc Hl Hacc Hd; simpl; [done|].
  assert (x ∈ l0) as Hx by (apply Hl; left).
  apply IH.
  - intros e He. apply Hl. by right.
  - intros e He. rewrite insertion_step_perm in He.
    apply elem_of_cons in He as [->|He]; auto.
  - by apply insertion_step_descending.
Qed.
End Sorted.

Lemma descending_reverse l : descending l -> ascending comp (reverse l).
Proof.
  unfold ascending. induction 1 as [|x l Hl IH Hx]; [constructor|].
  rewrite reverse_cons. apply StronglySorted_app_2; [|exact IH|repeat constructor].
  intros e ? He ->%list_elem_of_singleton.
  rewrite elem_of_reverse in He. rewrite Forall_forall in Hx. by apply Hx.
Qed.

Lemma insertion_sort_ascending l :
  strict_weak_order_on comp l -> ascending comp (insertion_sort comp l).
Proof.
  intros Hswo. apply descending_reverse.
  apply (fold_insertion_step_descending l Hswo); [done|set_solver|constructor].
Qed.
End InsertionSortFacts.

(** ** The sort of libstdc++ sorts

    Every step of the introsort permutes the range, and the final
    insertion sort puts any range in order. *)

(** Overwriting an element puts the new one in the place of the old. *)
Lemma insert_cons_perm {A} (l : list A) i x y :
  l !! i = Some x -> y :: l ≡ₚ x :: <[i := y]> l.
Proof.
  revert i. induction l as [|z l IH]; intros [|i] Hi; simplify_eq/=.
  - apply Permutation_swap.
  - etrans; [apply Permutation_swap|]. rewrite (IH i Hi). apply Permutation_swap.
Qed.

Section LibstdcxxFacts.
Import Libstdcxx.
Context {A : Type} (comp : A -> A -> bool).

Lemma iter_swap_perm i j (v : list A) : iter_swap i j v ≡ₚ v.
Proof.
  unfold iter_swap.
  destruct (v !! i) as [x|] eqn:Hi; [|reflexivity].
  destruct (v !! j) as [y|] eqn:Hj; [|reflexivity].
  apply (Permutation_cons_inv (a := y)).
  rewrite (insert_cons_perm v i x y Hi).
  assert (<[i := y]> v !! j = Some y) as Hj'.
  { destruct (decide (i = j)) as [->|Hne].
    - apply list_lookup_insert_eq. by apply lookup_lt_Some in Hj.
    - by rewrite list_lookup_insert_ne. }
  by rewrite (insert_cons_perm _ j y x Hj').
Qed.

Lemma move_median_to_first_perm result a b c (v : list A) :
  move_median_to_first comp result a b c v ≡ₚ v.
Proof.
  unfold move_median_to_first.
  repeat case_match; apply iter_swap_perm.
Qed.

Lemma unguarded_partition_perm fuel : forall first last pivot (v : list A),
  (unguarded_partition comp fuel first last pivot v).2 ≡ₚ v.
Proof.
  induction fuel as [|fuel IH]; intros first last pivot v; cbn [unguarded_partition];
    [reflexivity|].
  case_match; [reflexivity|]. rewrite IH. apply iter_swap_perm.
Qed.

Lemma unguarded_partition_pivot_perm (v : list A) :
  (unguarded_partition_pivot comp v).2 ≡ₚ v.
Proof.
  unfold unguarded_partition_pivot.
  rewrite unguarded_partition_perm. apply move_median_to_first_perm.
Qed.

(** *** The heap

    While an element is sifted, it is held aside and one position of
    the range, the hole, is stale.  Filling the hole with the element
    gives a permutation of the range from which it was taken. *)

Lemma hole_move (v : list A) hole child c value :
  v !! child = Some c -> (hole < length v)%nat ->
  <[child := value]> (<[hole := c]> v) ≡ₚ <[hole := value]> v.
Proof.
  intros Hc Hh. destruct (decide (hole = child)) as [->|Hne].
  { by rewrite list_insert_insert_eq. }
  rewrite <- (iter_swap_perm hole child (<[hole := value]> v)).
  unfold iter_swap.
  rewrite list_lookup_insert_eq, list_lookup_insert_ne, Hc by done.
  by rewrite list_insert_insert_eq.
Qed.

Lemma push_heap_perm fuel : forall holeIndex topIndex value (v : list A),
  (holeIndex < length v)%nat ->
  push_heap comp fuel holeIndex topIndex value v ≡ₚ <[holeIndex := value]> v.
Proof.
  induction fuel as [|fuel IH]; intros hole top value v Hh; cbn [push_heap];
    [reflexivity|].
  destruct (v !! ((hole - 1) / 2)%nat) as [p|] eqn:Hp; [|reflexivity].
  case_match; [|reflexivity].
  pose proof (lookup_lt_Some _ _ _ Hp) as Hlt.
  rewrite IH by (by rewrite length_insert).
  by apply hole_move.
Qed.

Lemma sift_down_perm fuel value : forall holeIndex secondChild len (v : list A),
  (holeIndex < length v)%nat ->
  let r := sift_down comp fuel holeIndex secondChild len v in
  (r.1.1 < length r.2)%nat /\ <[r.1.1 := value]> r.2 ≡ₚ <[holeIndex := value]> v.
Proof.
  induction fuel as [|fuel IH]; intros hole sc len v Hh; cbn [sift_down]; [done|].
  destruct (sc <? (len - 1) / 2)%nat; [|done].
  destruct (v !! _) as [c|] eqn:Hc; [|done].
  pose proof (lookup_lt_Some _ _ _ Hc) as Hlt.
  match goal with |- context [sift_down comp fuel ?h ?s len ?w] =>
    destruct (IH h s len w) as [Hh' Hperm]; [by rewrite length_insert|]
  end.
  split; [done|]. rewrite Hperm. by apply hole_move.
Qed.

Lemma adjust_heap_perm holeIndex len value (v : list A) :
  (holeIndex < length v)%nat ->
  adjust_heap comp holeIndex len value v ≡ₚ <[holeIndex := value]> v.
Proof.
  intros Hh. unfold adjust_heap.
  destruct (sift_down_perm len value holeIndex holeIndex len v Hh) as [Hh' Hperm].
  destruct (sift_down comp len holeIndex holeIndex len v) as [[hole' sc'] v'].
  simpl in Hh', Hperm.
  destruct (Nat.even len && (sc' =? (len - 2) / 2)%nat);
    [destruct (v' !! _) as [c|] eqn:Hc|].
  - pose proof (lookup_lt_Some _ _ _ Hc) as Hlt.
    rewrite push_heap_perm by (by rewrite length_insert).
    rewrite <- Hperm. by apply hole_move.
  - by rewrite push_heap_perm.
  - by rewrite push_heap_perm.
Qed.

Lemma make_heap_from_perm parent : forall len (v : list A),
  make_heap_from comp parent len v ≡ₚ v.
Proof.
  induction parent as [|parent IH]; intros len v; cbn [make_heap_from].
  - destruct (v !! 0%nat) as [value|] eqn:Hv; [|reflexivity].
    rewrite adjust_heap_perm by (by apply lookup_lt_Some in Hv).
    by rewrite list_insert_id.
  - rewrite IH. destruct (v !! S parent) as [value|] eqn:Hv; [|reflexivity].
    rewrite adjust_heap_perm by (by apply lookup_lt_Some in Hv).
    by rewrite list_insert_id.
Qed.

Lemma pop_heap_perm last (v : list A) : pop_heap comp last v ≡ₚ v.
Proof.
  unfold pop_heap.
  destruct (v !! last) as [value|] eqn:Hl; [|reflexivity].
  destruct (v !! 0%nat) as [top|] eqn:H0; [|reflexivity].
  rewrite adjust_heap_perm
    by (rewrite length_insert; by apply lookup_lt_Some in H0).
  rewrite <- (iter_swap_perm last 0 v) at 2. unfold iter_swap. by rewrite Hl, H0.
Qed.

Lemma sort_heap_perm last : forall v : list A, sort_heap comp last v ≡ₚ v.
Proof.
  induction last as [|last IH]; intros v; cbn [sort_heap]; [reflexivity|].
  case_match; [|reflexivity]. rewrite IH. apply pop_heap_perm.
Qed.

Lemma partial_sort_perm (v : list A) : partial_sort comp v ≡ₚ v.
Proof.
  unfold partial_sort, make_heap. rewrite sort_heap_perm.
  case_match; [reflexivity|]. apply make_heap_from_perm.
Qed.

Lemma introsort_loop_perm depth_limit : forall v : list A,
  introsort_loop comp depth_limit v ≡ₚ v.
Proof.
  induction depth_limit as [|d IH]; intros v; cbn [introsort_loop].
  - case_match; [apply partial_sort_perm|reflexivity].
  - case_match; [|reflexivity].
    pose proof (unguarded_partition_pivot_perm v) as Hp.
    destruct (unguarded_partition_pivot comp v) as [cut v']. simpl in Hp.
    by rewrite !IH, take_drop.
Qed.

(** *** The final insertion sort *)

Lemma fold_unguarded_perm (l sorted : list A) :
  fold_left (fun sorted x => unguarded_linear_insert comp x sorted) l sorted ≡ₚ l ++ sorted.
Proof.
  revert sorted. induction l as [|x l IH]; intros sorted; simpl; [reflexivity|].
  rewrite IH, unguarded_linear_insert_perm. by rewrite Permutation_middle.
Qed.

Lemma final_insertion_sort_perm (v : list A) : final_insertion_sort comp v ≡ₚ v.
Proof.
  unfold final_insertion_sort. case_match; [|symmetry; apply insertion_sort_perm].
  rewrite reverse_Permutation, fold_unguarded_perm, fold_insertion_step_perm, app_nil_r.
  by rewrite Permutation_app_comm, take_drop.
Qed.

Lemma fold_unguarded_descending l0 (l sorted : list A) :
  strict_weak_order_on comp l0 -> l ⊆ l0 -> sorted ⊆ l0 ->
  StronglySorted (fun x y => comp x y = false) sorted ->
  StronglySorted (fun x y => comp x y = false)
    (fold_left (fun sorted x => unguarded_linear_insert comp x sorted) l sorted).
Proof.
  intros Hswo. revert sorted.
  induction l as [|x l IH]; intros sorted Hl Hs Hd; simpl; [done|].
  assert (x ∈ l0) as Hx by (apply Hl; left).
  apply IH.
  - intros e He. apply Hl. by right.
  - intros e He. rewrite unguarded_linear_insert_perm in He.
    apply elem_of_cons in He as [->|He]; auto.
  - by apply (unguarded_linear_insert_descending comp l0).
Qed.

Lemma final_insertion_sort_ascending (v : list A) :
  strict_weak_order_on comp v -> ascending comp (final_insertion_sort comp v).
Proof.
  intros Hswo. unfold final_insertion_sort.
  case_match; [|by apply insertion_sort_ascending].
  apply descending_reverse.
  pose proof (subseteq_take 16 v) as Ht.
  pose proof (subseteq_drop 16 v) as Hd.
  apply (fold_unguarded_descending v); [done|done| |].
  - intros e He. rewrite fold_insertion_step_perm, app_nil_r in He. by apply Ht.
  - apply (fold_insertion_step_descending comp v); [done|done| |constructor].
    by intros e He%elem_of_nil.
Qed.

Lemma sort_perm (v : list A) : sort comp v ≡ₚ v.
Proof.
  unfold sort. destruct v as [|x v]; [reflexivity|].
  by rewrite final_insertion_sort_perm, introsort_loop_perm.
Qed.

Lemma sort_ascending (v : list A) :
  strict_weak_order_on comp v -> ascending comp (sort comp v).
Proof.
  intros Hswo. unfold sort. destruct v as [|x v]; [constructor|].
  apply final_insertion_sort_ascending.
  apply (strict_weak_order_on_perm comp (x :: v)); [|done].
  symmetry. apply introsort_loop_perm.
Qed.
End LibstdcxxFacts.

Lemma gnu_sort_conforming : conforming_sort gnu_sort.
Proof.
  split; intros A comp l.
  - apply Permutation_length, sort_perm.
  - intros _. symmetry. apply sort_perm.
  - apply sort_ascending.
Qed.

(** On a range of at most 16 elements the sort of libstdc++ is the
    insertion sort. *)
Lemma gnu_sort_small {A} (comp : A -> A -> bool) l :
  (length l <= 16)%nat -> gnu_sort A comp l = insertion_sort comp l.
Proof.
  intros Hlen. unfold gnu_sort, Libstdcxx.sort.
  destruct l as [|x l]; [done|].
  assert ((16 <? length (x :: l))%nat = false) as Hsmall by (apply Nat.ltb_ge; lia).
  assert (forall d, Libstdcxx.introsort_loop comp d (x :: l) = x :: l) as ->.
  { intros d. destruct d; cbn [Libstdcxx.introsort_loop]; by rewrite Hsmall. }
  unfold Libstdcxx.final_insertion_sort. by rewrite Hsmall.
Qed.

Lemma insertion_sort_conforming : conforming_sort (@insertion_sort).
Proof.
  split.
  - intros A comp l. apply insertion_sort_length.
  - intros A comp l _. apply insertion_sort_perm.
  - intros A comp l. apply insertion_sort_ascending.
Qed.

(** ** The order of [by_distance] *)

Lemma all_numbers_elem (ds : list spec_float) d :
  all_numbers ds = true -> d ∈ ds -> is_nan d = false.
Proof.
  unfold all_numbers. rewrite forallb_forall. intros Hall Hd%list_elem_of_In.
  apply Hall in Hd. by destruct (is_nan d).
Qed.

Lemma all_numbers_fst (l : list (spec_float * Movie)) x :
  all_numbers l.*1 = true -> x ∈ l -> is_nan x.1 = false.
Proof.
  intros Hall Hx. apply (all_numbers_elem _ _ Hall). by apply list_elem_of_fmap_2.
Qed.

Lemma all_numbers_perm ds ds' : ds ≡ₚ ds' -> all_numbers ds = all_numbers ds'.
Proof.
  intros E. unfold all_numbers. apply eq_true_iff_eq.
  rewrite !forallb_forall. by setoid_rewrite <- list_elem_of_In; setoid_rewrite E.
Qed.

Lemma by_distance_swo (l : list (spec_float * Movie)) :
  all_numbers l.*1 = true -> strict_weak_order_on by_distance l.
Proof.
  intros Hall.
  split; unfold equiv_under, by_distance.
  - intros x Hx. pose proof (all_numbers_fst _ _ Hall Hx).
    apply f_lt_false_key; [done..|]. unfold key_lt. lia.
  - intros x y z Hx Hy Hz.
    pose proof (all_numbers_fst _ _ Hall Hx). pose proof (all_numbers_fst _ _ Hall Hy).
    pose proof (all_numbers_fst _ _ Hall Hz).
    rewrite !f_lt_key by done. unfold key_lt. lia.
  - intros x y z Hx Hy Hz.
    pose proof (all_numbers_fst _ _ Hall Hx). pose proof (all_numbers_fst _ _ Hall Hy).
    pose proof (all_numbers_fst _ _ Hall Hz).
    rewrite !f_lt_false_key by done. unfold key_lt. lia.
Qed.

(** ** The stable sort of the specification sorts *)

Section StableSortFacts.
Context {A : Type} (comp : A -> A -> bool).

Lemma stable_insert_perm x l : stable_insert comp x l ≡ₚ x :: l.
Proof.
  induction l as [|y l IH]; simpl; [done|].
  destruct (comp y x); [|done]. rewrite IH. apply Permutation_swap.
Qed.

Lemma stable_sort_perm l : stable_sort comp l ≡ₚ l.
Proof.
  induction l as [|x l IH]; simpl; [done|].
  by rewrite stable_insert_perm, IH.
Qed.

Lemma stable_insert_ascending l0 x l :
  strict_weak_order_on comp l0 -> x ∈ l0 -> l ⊆ l0 ->
  ascending comp l -> ascending comp (stable_insert comp x l).
Proof.
  intros Hswo Hx. unfold ascending.
  induction l as [|y l IH]; intros Hsub Hasc; simpl.
  { repeat constructor. }
  apply StronglySorted_cons in Hasc as [Hy Hasc].
  assert (y ∈ l0) as Hy0 by (apply Hsub; left).
  assert (l ⊆ l0) as Hsub' by (intros e He; apply Hsub; by right).
  rewrite Forall_forall in Hy.
  destruct (comp y x) eqn:Hc; apply StronglySorted_cons.
  - split; [|by apply IH]. apply Forall_forall. intros e He.
    rewrite stable_insert_perm in He.
    apply elem_of_cons in He as [->|He]; [|by apply Hy].
    by apply (swo_asym comp l0 Hswo).
  - split; [|apply StronglySorted_cons; by rewrite Forall_forall].
    apply Forall_cons. split; [done|]. apply Forall_forall. intros e He.
    apply (swo_not_below comp l0 Hswo e y x); auto.
Qed.

Lemma stable_sort_ascending l :
  strict_weak_order_on comp l -> ascending comp (stable_sort comp l).
Proof.
  intros Hswo. assert (l ⊆ l) as Hsub by done. revert Hsub.
  generalize l at 1 3 as k.
  induction k as [|x k IH]; intros Hsub; simpl; [constructor|].
  apply (stable_insert_ascending l); [done|apply Hsub; left| |].
  - intros e He. rewrite stable_sort_perm in He. apply Hsub. by right.
  - apply IH. intros e He. apply Hsub. by right.
Qed.
End StableSortFacts.

(** ** [recommendMovies] *)

Lemma distances_of_fst q cat : (distances_of q cat).*1 = map (distance_to q) cat.
Proof. unfold distances_of, distance_to. by rewrite <- list_fmap_compose. Qed.

Lemma distances_of_snd q cat : (distances_of q cat).*2 = cat.
Proof.
  unfold distances_of. rewrite <- list_fmap_compose. apply list_fmap_id.
Qed.

Lemma distances_of_length q cat : length (distances_of q cat) = length cat.
Proof. unfold distances_of. apply length_fmap. Qed.

Lemma distances_of_elem q cat x :
  x ∈ distances_of q cat -> x.1 = distance_to q x.2.
Proof. unfold distances_of. by intros (m & -> & _)%list_elem_of_fmap. Qed.

Lemma push_back_loop_take distances k i recommendations :
  push_back_loop distances k i recommendations
  = recommendations ++ (take k (drop i distances)).*2.
Proof.
  revert i recommendations.
  induction k as [|k IH]; intros i acc; simpl.
  { by rewrite app_nil_r. }
  destruct (distances !! i) as [d|] eqn:E.
  - rewrite IH, (drop_S _ _ _ E). simpl. by rewrite <- app_assoc.
  - apply lookup_ge_None in E. rewrite drop_ge by done. by rewrite app_nil_r.
Qed.

Lemma static_cast_int_small n : 0 <= n < 2^31 -> static_cast_int n = n.
Proof. intros Hn. unfold static_cast_int. rewrite Z.mod_small; lia. Qed.

Lemma non_decreasing_take ds k : non_decreasing ds = true -> non_decreasing (take k ds) = true.
Proof.
  revert k. induction ds as [|d ds IH]; intros [|k]; simpl; try done.
  destruct ds as [|d' ds]; [by destruct k|].
  intros [Hd Hds]%andb_prop. destruct k as [|k]; [done|].
  change (f_le d d' && non_decreasing (take (S k) (d' :: ds)) = true).
  by rewrite Hd, IH.
Qed.

Lemma ascending_non_decreasing (l : list (spec_float * Movie)) :
  all_numbers l.*1 = true -> ascending by_distance l -> non_decreasing l.*1 = true.
Proof.
  intros Hall. induction 1 as [|x l Hl IH Hx]; [done|].
  destruct l as [|y l]; [done|].
  change (f_le x.1 y.1 && non_decreasing (y :: l).*1 = true).
  apply andb_true_intro. split.
  - apply Forall_cons in Hx as [Hxy _].
    apply f_le_not_lt; [..|exact Hxy].
    + apply (all_numbers_fst _ _ Hall). left.
    + apply (all_numbers_fst _ _ Hall). right. left.
  - apply IH. simpl in Hall. by apply andb_prop in Hall as [_ ?].
Qed.

Lemma all_distinct_equiv (l : list (spec_float * Movie)) x y :
  all_distinct l.*1 = true -> x ∈ l -> y ∈ l ->
  by_distance x y = false -> by_distance y x = false -> x = y.
Proof.
  unfold by_distance.
  induction l as [|p l IH]; simpl; [by intros _ ?%elem_of_nil|].
  intros [Hp Hl]%andb_prop Hx Hy Hxy Hyx.
  rewrite forallb_forall in Hp.
  assert (forall z, z ∈ l -> f_lt p.1 z.1 || f_lt z.1 p.1 = true) as Hp'.
  { intros z Hz. apply Hp, list_elem_of_In. by apply list_elem_of_fmap_2. }
  apply elem_of_cons in Hx as [->|Hx], Hy as [->|Hy]; [done| | |by apply IH].
  - specialize (Hp' y Hy). by rewrite Hxy, Hyx in Hp'.
  - specialize (Hp' x Hx). by rewrite Hxy, Hyx in Hp'.
Qed.

Section RecommendFacts.
Variable std_sort : sort_function.

Lemma recommendMovies_push_back q cat topN :
  recommendMovies std_sort q cat topN
  = take (Z.to_nat (Z.min topN (static_cast_int (Z.of_nat (length (ranked std_sort q cat))))))
         (ranked std_sort q cat).*2.
Proof.
  unfold recommendMovies. rewrite push_back_loop_take, drop_0. by rewrite fmap_take.
Qed.

Hypothesis Hsort : conforming_sort std_sort.

Lemma ranked_length q cat : length (ranked std_sort q cat) = length cat.
Proof. unfold ranked. by rewrite (std_sort_length _ Hsort), distances_of_length. Qed.

Lemma recommendMovies_take q cat topN :
  recommendMovies std_sort q cat topN
  = take (Z.to_nat (Z.min topN (static_cast_int (Z.of_nat (length cat)))))
         (ranked std_sort q cat).*2.
Proof. by rewrite recommendMovies_push_back, ranked_length. Qed.

Section Numbers.
Variables (q : Movie) (cat : list Movie).
Hypothesis Hnum : all_numbers (map (distance_to q) cat) = true.

Lemma distances_of_swo : strict_weak_order_on by_distance (distances_of q cat).
Proof. apply by_distance_swo. by rewrite distances_of_fst. Qed.

Lemma ranked_perm : distances_of q cat ≡ₚ ranked std_sort q cat.
Proof. apply (std_sort_permutation _ Hsort), distances_of_swo. Qed.

Lemma ranked_ascending : ascending by_distance (ranked std_sort q cat).
Proof. apply (std_sort_ascending _ Hsort), distances_of_swo. Qed.

Lemma ranked_snd_perm : cat ≡ₚ (ranked std_sort q cat).*2.
Proof. by rewrite <- ranked_perm, distances_of_snd. Qed.

Lemma ranked_fst :
  (ranked std_sort q cat).*1 = map (distance_to q) (ranked std_sort q cat).*2.
Proof.
  rewrite <- list_fmap_compose. apply list_fmap_ext.
  intros i x Hx. simpl. apply distances_of_elem with (cat := cat) (q := q).
  rewrite ranked_perm. by apply list_elem_of_lookup_2 in Hx.
Qed.

Lemma ranked_non_decreasing :
  non_decreasing (map (distance_to q) (ranked std_sort q cat).*2) = true.
Proof.
  rewrite <- ranked_fst. apply ascending_non_decreasing; [|apply ranked_ascending].
  by rewrite <- (all_numbers_perm _ _ (fmap_Permutation fst _ _ ranked_perm)), distances_of_fst.
Qed.
End Numbers.
End RecommendFacts.

(** ** Degenerate mean colours *)

Lemma calculateMeanRGB_empty image :
  Mat_empty image = true -> calculateMeanRGB image = zero_vector.
Proof.
  intros He. unfold calculateMeanRGB, cv_mean, Mat_elems. by rewrite He.
Qed.

Lemma Vec3f_dot_zero_r a : zero_or_nan (Vec3f_dot a zero_vector).
Proof.
  unfold Vec3f_dot, f32_add, f32_mul, f_zero, zero_vector. cbn [v0 v1 v2].
  repeat apply zero_or_nan_add; try apply zero_or_nan_mul_r. exact I.
Qed.

Lemma Vec3f_dot_zero_l b : zero_or_nan (Vec3f_dot zero_vector b).
Proof.
  unfold Vec3f_dot, f32_add, f32_mul, f_zero, zero_vector. cbn [v0 v1 v2].
  repeat apply zero_or_nan_add; try apply zero_or_nan_mul_l. exact I.
Qed.

Lemma cv_norm_zero : cv_norm zero_vector = f_zero.
Proof. reflexivity. Qed.

(** The distance to the zero vector is NaN, whatever the other vector. *)
Lemma cosineDistance_zero_r a : cosineDistance a zero_vector = S754_nan.
Proof.
  unfold cosineDistance, f32_to_f64, f64_sub, f64_div, f64_mul.
  rewrite cv_norm_zero, SFdiv_zero_or_nan.
  - by rewrite SFsub_nan_r.
  - apply Vec3f_dot_zero_r.
  - apply zero_or_nan_mul_r.
Qed.

(** So is the distance from the zero vector: a black query poster has
    no number as distance to any movie. *)
Lemma cosineDistance_zero_l b : cosineDistance zero_vector b = S754_nan.
Proof.
  unfold cosineDistance, f32_to_f64, f64_sub, f64_div, f64_mul.
  rewrite cv_norm_zero, SFdiv_zero_or_nan.
  - by rewrite SFsub_nan_r.
  - apply Vec3f_dot_zero_l.
  - apply zero_or_nan_mul_l.
Qed.

(** *** Vectors without direction *)

Section DegenerateFacts.
Variables prec emax : Z.

Lemma zero_or_nan_mul_any_r x y : zero_or_nan y -> zero_or_nan (SFmul prec emax x y).
Proof. destruct x, y; done. Qed.

Lemma zero_or_nan_mul_any_l x y : zero_or_nan x -> zero_or_nan (SFmul prec emax x y).
Proof. destruct x, y; done. Qed.

Lemma zero_or_nan_sqrt x : zero_or_nan x -> zero_or_nan (SFsqrt prec emax x).
Proof. destruct x; done. Qed.
End DegenerateFacts.

Lemma zero_or_nan_f64_to_f32 x : zero_or_nan x -> zero_or_nan (f64_to_f32 x).
Proof. destruct x; done. Qed.

Lemma cv_norm_degenerate a : degenerate a -> zero_or_nan (cv_norm a).
Proof.
  intros (H0 & H1 & H2). unfold cv_norm, normL2Sqr, f64_sqrt, f64_add, f64_mul, f32_to_f64, f_zero.
  apply zero_or_nan_sqrt.
  repeat apply zero_or_nan_add; try (by apply zero_or_nan_mul_any_r). exact I.
Qed.

Lemma cosineDistance_nan_r a b : degenerate b -> cosineDistance a b = S754_nan.
Proof.
  intros Hb. pose proof (cv_norm_degenerate b Hb) as Hn. destruct Hb as (H0 & H1 & H2).
  unfold cosineDistance, f32_to_f64, f64_sub, f64_div, f64_mul.
  rewrite SFdiv_zero_or_nan.
  - by rewrite SFsub_nan_r.
  - unfold Vec3f_dot, f32_add, f32_mul, f_zero.
    repeat apply zero_or_nan_add; try (by apply zero_or_nan_mul_any_r). exact I.
  - by apply zero_or_nan_mul_any_r.
Qed.

Lemma cosineDistance_nan_l a b : degenerate a -> cosineDistance a b = S754_nan.
Proof.
  intros Ha. pose proof (cv_norm_degenerate a Ha) as Hn. destruct Ha as (H0 & H1 & H2).
  unfold cosineDistance, f32_to_f64, f64_sub, f64_div, f64_mul.
  rewrite SFdiv_zero_or_nan.
  - by rewrite SFsub_nan_r.
  - unfold Vec3f_dot, f32_add, f32_mul, f_zero.
    repeat apply zero_or_nan_add; try (by apply zero_or_nan_mul_any_l). exact I.
  - by apply zero_or_nan_mul_any_l.
Qed.

(** C1: [recommendMovies] has no exclusion step.  For every query, a
    catalog entry whose cover is empty gets the distance NaN; the
    comparison of the sort orders it against no entry at all; it is one
    of the [|catalog|] entries handed to the sort; and as soon as two
    other entries are at different distances, the comparison is no
    strict weak ordering of the entries, so that the standard says
    nothing on the order [std::sort] leaves them in. *)
Theorem failed_cover_distance_is_nan (std_sort : sort_function) (q c : Movie) (cat : list Movie) :
  conforming_sort std_sort ->
  Mat_empty (cover c) = true -> c ∈ cat ->
  distance_to q c = S754_nan
  /\ (forall x, by_distance (distance_to q c, c) x = false
             /\ by_distance x (distance_to q c, c) = false)
  /\ (S754_nan, c) ∈ distances_of q cat
  /\ length (ranked std_sort q cat) = length cat
  /\ (forall x y, x ∈ distances_of q cat -> y ∈ distances_of q cat ->
       by_distance x y = true ->
       ~ strict_weak_order_on by_distance (distances_of q cat)).
Proof.
  intros Hsort He Hc.
  assert (distance_to q c = S754_nan) as Hd.
  { unfold distance_to. rewrite (calculateMeanRGB_empty _ He).
    apply cosineDistance_zero_r. }
  assert (forall x, by_distance (distance_to q c, c) x = false
                    /\ by_distance x (distance_to q c, c) = false) as Hnan.
  { intros x. rewrite Hd. unfold by_distance. simpl.
    by rewrite f_lt_nan_l, f_lt_nan_r. }
  assert ((S754_nan, c) ∈ distances_of q cat) as Hin.
  { rewrite <- Hd. unfold distances_of. apply list_elem_of_fmap. by exists c. }
  split; [done|]. split; [done|]. split; [done|]. split; [by apply ranked_length|].
  intros x y Hx Hy Hxy Hswo. rewrite <- Hd in Hin.
  destruct (swo_equiv_trans _ _ Hswo x (distance_to q c, c) y) as [E _]; try done.
  - split; apply Hnan.
  - split; apply Hnan.
  - congruence.
Qed.

Lemma failed_cover_distance_is_nan_witness :
  distance_to query_red movie_failed = S754_nan
  /\ (forall x, by_distance (distance_to query_red movie_failed, movie_failed) x = false
             /\ by_distance x (distance_to query_red movie_failed, movie_failed) = false)
  /\ (S754_nan, movie_failed) ∈ distances_of query_red [movie_red; movie_failed; movie_blue]
  /\ length (ranked gnu_sort query_red [movie_red; movie_failed; movie_blue]) = 3%nat
  /\ ~ strict_weak_order_on by_distance
        (distances_of query_red [movie_red; movie_failed; movie_blue]).
Proof.
  destruct (failed_cover_distance_is_nan gnu_sort query_red movie_failed
              [movie_red; movie_failed; movie_blue]) as (Hd & Hc & Hin & Hlen & Hswo).
  - apply gnu_sort_conforming.
  - reflexivity.
  - right. left.
  - split; [exact Hd|]. split; [exact Hc|]. split; [exact Hin|]. split; [exact Hlen|].
    apply (Hswo (distance_to query_red movie_red, movie_red)
                (distance_to query_red movie_blue, movie_blue)).
    + left.
    + right. right. left.
    + vm_compute. reflexivity.
Defined.

(** With the sort of libstdc++, the failed cover is ranked first, before
    a poster equal to the query's. *)
Lemma failed_cover_ranked_first :
  ~ degenerate_never_above query_red
      (recommendMovies gnu_sort query_red [movie_failed; movie_red] 2).
Proof.
  intros Hclaim.
  assert (1 < 0)%nat as Habs; [|lia].
  apply (Hclaim 0%nat 1%nat movie_failed movie_red); by vm_compute.
Qed.

(** ** A sort that reverses ties *)

Lemma reversed_insertion_sort_length {A} (comp : A -> A -> bool) l :
  length (reversed_insertion_sort comp l) = length l.
Proof.
  unfold reversed_insertion_sort. by rewrite insertion_sort_length, length_reverse.
Qed.

Lemma reversed_insertion_sort_perm {A} (comp : A -> A -> bool) l :
  strict_weak_order_on comp l -> l ≡ₚ reversed_insertion_sort comp l.
Proof.
  intros _. unfold reversed_insertion_sort.
  by rewrite <- insertion_sort_perm, reverse_Permutation.
Qed.

Lemma reversed_insertion_sort_ascending {A} (comp : A -> A -> bool) l :
  strict_weak_order_on comp l -> ascending comp (reversed_insertion_sort comp l).
Proof.
  intros Hswo. apply insertion_sort_ascending.
  apply (strict_weak_order_on_perm comp l); [|done].
  by rewrite reverse_Permutation.
Qed.

Lemma reversed_insertion_sort_conforming : conforming_sort (@reversed_insertion_sort).
Proof.
  split.
  - intros A comp l. apply reversed_insertion_sort_length.
  - intros A comp l. apply reversed_insertion_sort_perm.
  - intros A comp l. apply reversed_insertion_sort_ascending.
Qed.

(** ** The claims on [recommendMovies] *)

(** C10: for every catalog and query, and every [topN] that is zero or
    negative, [recommendMovies] returns the empty list, whatever
    [std::sort] did to the distances. *)
Theorem recommendMovies_nonpositive_topN (std_sort : sort_function) (q : Movie)
    (cat : list Movie) (topN : Z) :
  topN <= 0 -> recommendMovies std_sort q cat topN = [].
Proof.
  intros Hn. unfold recommendMovies.
  replace (Z.to_nat _) with 0%nat by lia. reflexivity.
Qed.

Lemma recommendMovies_nonpositive_topN_witness :
  recommendMovies gnu_sort query_red [movie_red; movie_blue] (-3) = [].
Proof. apply recommendMovies_nonpositive_topN. lia. Defined.

(** C4: for every catalog of fewer than 2^31 entries, every query and
    every [topN], [recommendMovies] returns [min(topN, |catalog|)]
    movies (none when that is negative); when no distance is NaN, the
    distances of the movies returned do not decrease; and on the empty
    catalog it returns the empty list. *)
Theorem recommendMovies_count_and_order (std_sort : sort_function) (q : Movie)
    (cat : list Movie) (topN : Z) :
  conforming_sort std_sort ->
  Z.of_nat (length cat) < 2^31 ->
  length (recommendMovies std_sort q cat topN) = Z.to_nat (Z.min topN (Z.of_nat (length cat)))
  /\ (all_numbers (map (distance_to q) cat) = true ->
      non_decreasing (map (distance_to q) (recommendMovies std_sort q cat topN)) = true)
  /\ recommendMovies std_sort q [] topN = [].
Proof.
  intros Hsort Hlen. rewrite !recommendMovies_take by done.
  rewrite static_cast_int_small by lia.
  split; [|split].
  - rewrite length_take, length_fmap, ranked_length by done. lia.
  - intros Hnum.
    change (map (distance_to q)) with (fmap (M := list) (distance_to q)).
    rewrite fmap_take. apply non_decreasing_take. by apply ranked_non_decreasing.
  - assert (length (ranked std_sort q []) = 0%nat) as E by (by rewrite ranked_length).
    destruct (ranked std_sort q []); [|done]. apply take_nil.
Qed.

Lemma recommendMovies_count_and_order_witness :
  length (recommendMovies gnu_sort query_red [movie_blue; movie_orange; movie_red] 2)
  = 2%nat
  /\ non_decreasing (map (distance_to query_red)
       (recommendMovies gnu_sort query_red [movie_blue; movie_orange; movie_red] 2))
     = true
  /\ recommendMovies gnu_sort query_red [] 2 = [].
Proof.
  destruct (recommendMovies_count_and_order gnu_sort query_red
              [movie_blue; movie_orange; movie_red] 2) as (Hcount & Horder & Hnil).
  - apply gnu_sort_conforming.
  - simpl. lia.
  - split; [exact Hcount|]. split; [|exact Hnil].
    apply Horder. vm_compute. reflexivity.
Defined.

(** With a failed cover in the catalog the distances returned are NaN
    and 0, which are not in order; and a catalog of 2^31 entries yields
    no movie at all, where 5 are asked for. *)
Lemma nan_distances_not_ordered :
  non_decreasing (map (distance_to query_red)
    (recommendMovies gnu_sort query_red [movie_failed; movie_red] 2)) = false
  /\ length (recommendMovies gnu_sort query_red huge_catalog 5)
     <> Z.to_nat (Z.min 5 (Z.of_nat (length huge_catalog))).
Proof.
  split; [by vm_compute|].
  rewrite recommendMovies_take by apply gnu_sort_conforming. unfold huge_catalog.
  rewrite length_replicate, Z2Nat.id by lia.
  replace (static_cast_int (2 ^ 31)) with (- 2 ^ 31) by reflexivity.
  replace (Z.to_nat (Z.min 5 (- 2 ^ 31))) with 0%nat by reflexivity.
  replace (Z.to_nat (Z.min 5 (2 ^ 31))) with 5%nat by reflexivity.
  rewrite take_0. simpl. lia.
Qed.

(** C2: for every catalog and every query, [recommendMovies] computes
    the distance from the query to the mean colour of every entry; when
    no distance is NaN, the movies it returns are the first of a
    permutation of the catalog whose distances do not decrease; and when
    moreover no two distances are equal, they are the first of the
    ranking of the specification, whatever the implementation of
    [std::sort]. *)
Theorem recommendMovies_ranking (std_sort : sort_function) (q : Movie)
    (cat : list Movie) (topN : Z) :
  conforming_sort std_sort ->
  all_numbers (map (distance_to q) cat) = true ->
  distances_of q cat
  = map (fun m => (cosineDistance (calculateMeanRGB (cover q)) (calculateMeanRGB (cover m)), m)) cat
  /\ (exists sorted,
        cat ≡ₚ sorted
        /\ non_decreasing (map (distance_to q) sorted) = true
        /\ recommendMovies std_sort q cat topN `prefix_of` sorted)
  /\ (all_distinct (map (distance_to q) cat) = true ->
      recommendMovies std_sort q cat topN `prefix_of` stable_ranking q cat).
Proof.
  intros Hsort Hnum. split; [done|]. split.
  - exists (ranked std_sort q cat).*2. split; [by apply ranked_snd_perm|].
    split; [by apply ranked_non_decreasing|].
    rewrite recommendMovies_push_back. apply prefix_take.
  - intros Hdis.
    assert (ranked std_sort q cat = stable_sort by_distance (distances_of q cat)) as E.
    { pose proof (distances_of_swo q cat Hnum) as Hswo.
      apply (StronglySorted_unique_strong (fun x y => by_distance y x = false)).
      + intros x1 x2 H1 H2 H12 H21.
        rewrite <- (ranked_perm std_sort Hsort) in H1 by done.
        rewrite stable_sort_perm in H2.
        apply (all_distinct_equiv (distances_of q cat)); try done.
        by rewrite distances_of_fst.
      + by apply ranked_ascending.
      + by apply stable_sort_ascending.
      + by rewrite <- (ranked_perm std_sort Hsort), stable_sort_perm. }
    rewrite recommendMovies_push_back. unfold stable_ranking. rewrite <- E.
    apply prefix_take.
Qed.

Lemma recommendMovies_ranking_witness :
  distances_of query_red [movie_blue; movie_orange; movie_red]
  = map (fun m => (cosineDistance (calculateMeanRGB (cover query_red))
                                  (calculateMeanRGB (cover m)), m))
        [movie_blue; movie_orange; movie_red]
  /\ (exists sorted,
        [movie_blue; movie_orange; movie_red] ≡ₚ sorted
        /\ non_decreasing (map (distance_to query_red) sorted) = true
        /\ recommendMovies gnu_sort query_red [movie_blue; movie_orange; movie_red] 2
           `prefix_of` sorted)
  /\ recommendMovies gnu_sort query_red [movie_blue; movie_orange; movie_red] 2
     `prefix_of` stable_ranking query_red [movie_blue; movie_orange; movie_red].
Proof.
  destruct (recommendMovies_ranking gnu_sort query_red
              [movie_blue; movie_orange; movie_red] 2) as (Hd & Hs & Hspec).
  - apply gnu_sort_conforming.
  - vm_compute. reflexivity.
  - split; [exact Hd|]. split; [exact Hs|].
    apply Hspec. vm_compute. reflexivity.
Defined.

(** Entries at the same distance come back in the order the sort leaves
    them in.  One conforming sort returns two such entries in the
    reverse of the catalog order; the sort of libstdc++ returns the
    first five of seventeen as the 9th, 17th, 16th, 15th and 14th of the
    catalog. *)
Lemma ties_not_in_catalog_order :
  (conforming_sort (@reversed_insertion_sort)
   /\ ~ recommendMovies (@reversed_insertion_sort) query_red [movie_red; movie_red_twin] 2
         `prefix_of` stable_ranking query_red [movie_red; movie_red_twin])
  /\ (id <$> recommendMovies gnu_sort query_red red_sequels 5 = [9; 17; 16; 15; 14]
      /\ id <$> take 5 (stable_ranking query_red red_sequels) = [1; 2; 3; 4; 5]).
Proof.
  split; [split; [apply reversed_insertion_sort_conforming|]|by vm_compute].
  intros [rest E]. apply (f_equal (fmap id)) in E. vm_compute in E. discriminate E.
Qed.

(** ** [cosineDistance] *)



(** ** [loadImageFromURL] *)

Section FetchFacts.
Variable curl_easy_init : string -> bool.
Variable curl_easy_perform : string -> list (list byte) * Z.
Variable decode : list byte -> outcome (option Mat).

Abbreviation fetch := (loadImageFromURL curl_easy_init curl_easy_perform decode).

(** The buffer holds the chunks one after the other. *)
Lemma fold_WriteCallback chunks buffer :
  fold_left WriteCallback chunks buffer = buffer ++ concat chunks.
Proof.
  revert buffer. induction chunks as [|c chunks IH]; intros buffer; simpl.
  - by rewrite app_nil_r.
  - rewrite IH. unfold WriteCallback. by rewrite app_assoc.
Qed.

(** A transfer that fails yields the empty image. *)
Lemma loadImageFromURL_transport_failure url :
  curl_easy_init url = false \/ (curl_easy_perform url).2 <> CURLE_OK ->
  fetch url = Returns Mat_default.
Proof.
  unfold loadImageFromURL. intros [-> | Hres]; [done|].
  destruct (curl_easy_init url); [|done].
  destruct (curl_easy_perform url) as [chunks res]; simpl in *.
  by apply Z.eqb_neq in Hres as ->.
Qed.

(** A body that is not empty and that no codec reads yields the empty
    image. *)
Lemma loadImageFromURL_undecodable url chunks :
  curl_easy_init url = true -> curl_easy_perform url = (chunks, CURLE_OK) ->
  concat chunks <> [] -> decode (concat chunks) = Returns None ->
  fetch url = Returns Mat_default.
Proof.
  unfold loadImageFromURL. intros -> -> Hne Hdec. simpl.
  rewrite fold_WriteCallback. simpl.
  unfold cv_imdecode. destruct (concat chunks); [done|]. by rewrite Hdec.
Qed.

(** The ways out by exception lead through [cv::imdecode]: a transfer
    that succeeds without a single byte, or with bytes on which
    [imdecode_] raises. *)
Lemma loadImageFromURL_throws url :
  returned (fetch url) = false <->
  curl_easy_init url = true /\ (curl_easy_perform url).2 = CURLE_OK
  /\ (concat (curl_easy_perform url).1 = []
      \/ returned (decode (concat (curl_easy_perform url).1)) = false).
Proof.
  unfold loadImageFromURL.
  destruct (curl_easy_init url); [|by split; [|intros [? _]]].
  destruct (curl_easy_perform url) as [chunks res]; simpl.
  rewrite fold_WriteCallback. simpl.
  destruct (Z.eqb_spec res CURLE_OK) as [->|Hne]; [|by split; [|intros (_ & ? & _)]].
  unfold cv_imdecode. destruct (concat chunks) as [|b body]; [by split; [auto|]|].
  destruct (decode (b :: body)) as [image|e]; simpl.
  - split; [done|]. by intros (_ & _ & [?|?]).
  - split; [auto|done].
Qed.
End FetchFacts.

(** C9: a URL whose transfer succeeds with an empty body makes
    [loadImageFromURL] raise the exception of [cv::imdecode]; a failed
    transfer and a body that is no image give the empty image. *)
Theorem loadImageFromURL_empty_body_raises :
  loadImageFromURL example_curl_easy_init example_curl_easy_perform example_decode
    "http://posters.example/moved.png"
  = Throws (mkException "(-215:Assertion failed) !buf.empty() in function 'imdecode_'")
  /\ loadImageFromURL example_curl_easy_init example_curl_easy_perform example_decode
       "http://nowhere.example/x.png" = Returns Mat_default
  /\ loadImageFromURL example_curl_easy_init example_curl_easy_perform example_decode
       "http://posters.example/none.png" = Returns Mat_default.
Proof. by vm_compute. Qed.

(** ** [preprocessImage] *)

Lemma length_bind_const {A B} (f : A -> list B) (l : list A) (k : nat) :
  (forall x, length (f x) = k) -> length (l ≫= f) = (length l * k)%nat.
Proof.
  intros Hf. induction l as [|x l IH]; [done|].
  rewrite bind_cons, length_app, Hf, IH. simpl. lia.
Qed.

Lemma cv_resize_data_length resample src dsize :
  length (data (cv_resize resample src dsize))
  = (Z.to_nat (height dsize) * Z.to_nat (width dsize))%nat.
Proof.
  simpl. rewrite (length_bind_const _ _ (Z.to_nat (width dsize))).
  - by rewrite length_seqZ.
  - intros y. rewrite (length_bind_const _ _ 1); [|done].
    rewrite length_seqZ. lia.
Qed.

Lemma cv_resize_not_empty resample src dsize :
  0 < width dsize -> 0 < height dsize ->
  Mat_empty (cv_resize resample src dsize) = false.
Proof.
  intros Hw Hh. pose proof (cv_resize_data_length resample src dsize) as Hlen.
  unfold Mat_empty.
  destruct (data (cv_resize resample src dsize)) as [|p px]; simpl in Hlen; [nia|].
  unfold Mat_total. simpl. apply Z.eqb_neq. nia.
Qed.

(** C5: for every bitmap, [preprocessImage] returns the empty bitmap
    when its input is empty, and otherwise a bitmap of 98 rows and 67
    columns, with that many pixels. *)
Theorem preprocessImage_resolution (resample : Mat -> Size -> Z -> Z -> Pixel) (image : Mat) :
  let normalized := preprocessImage resample image in
  if Mat_empty image then
    normalized = Mat_default /\ Mat_empty normalized = true
  else
    cols normalized = 67 /\ rows normalized = 98
    /\ length (data normalized) = Z.to_nat (67 * 98)
    /\ Mat_empty normalized = false.
Proof.
  unfold preprocessImage. destruct (Mat_empty image); [done|].
  split; [done|]. split; [done|]. split.
  - by rewrite cv_resize_data_length.
  - by apply cv_resize_not_empty.
Qed.

(** ** [loadMoviesFromDatabase] *)

Section CatalogFacts.
Variable curl_easy_init : string -> bool.
Variable curl_easy_perform : string -> list (list byte) * Z.
Variable decode : list byte -> outcome (option Mat).
Variable resample : Mat -> Size -> Z -> Z -> Pixel.
Variable connection : Type.
Variable pqxx_connection : string -> outcome connection.
Variable pqxx_exec : connection -> string -> outcome (list pqxx_row).
Variable as_int : pqxx_field -> outcome Z.
Variable as_string : pqxx_field -> outcome string.
Variable std_async : nat -> outcome unit.

Abbreviation fetch' := (loadImageFromURL curl_easy_init curl_easy_perform decode).
Abbreviation normalize := (preprocessImage resample).
Abbreviation complete' := (complete curl_easy_init curl_easy_perform decode).
Abbreviation future_get' := (future_get curl_easy_init curl_easy_perform decode).
Abbreviation join_loop' := (join_loop curl_easy_init curl_easy_perform decode resample).
Abbreviation futures_of' := (futures_of curl_easy_init curl_easy_perform decode).
Abbreviation attach_covers' := (attach_covers curl_easy_init curl_easy_perform decode resample).
Abbreviation launch_loop' := (launch_loop as_int as_string std_async).
Abbreviation launched_rows' := (launched_rows as_int as_string std_async).
Abbreviation loaded' :=
  (loaded curl_easy_init curl_easy_perform decode resample as_int as_string std_async).
Abbreviation load :=
  (loadMoviesFromDatabase curl_easy_init curl_easy_perform decode resample
     connection pqxx_connection pqxx_exec as_int as_string std_async).

(** *** The first loop *)

(** The loop pushes the movies and the futures of the rows it gets
    through, and ends as they say. *)
Lemma launch_loop_rows result : forall movies futures,
  launch_loop' result movies futures
  = (movies ++ (entry_of <$> (launched_rows' (length futures) result).1),
     futures ++ (Running ∘ row_poster_link <$> (launched_rows' (length futures) result).1),
     (launched_rows' (length futures) result).2).
Proof.
  induction result as [|row result IH]; intros movies futures.
  { simpl. by rewrite !app_nil_r. }
  cbn [launch_loop launched_rows]. unfold launch_step, read_row.
  destruct (as_int (id_field row)) as [movie_id|e]; [|by rewrite !app_nil_r].
  destruct (as_string (title_field row)) as [movie_title|e]; [|by rewrite !app_nil_r].
  destruct (as_string (genre_field row)) as [movie_genre|e]; [|by rewrite !app_nil_r].
  destruct (as_string (poster_link_field row)) as [movie_poster_url|e];
    [|by rewrite !app_nil_r].
  simpl. destruct (std_async (length futures)) as [[]|e]; [|by rewrite !app_nil_r].
  simpl. rewrite IH, length_app. simpl. rewrite Nat.add_1_r.
  destruct (launched_rows' (S (length futures)) result) as [rows ending]. simpl.
  by rewrite <- !app_assoc.
Qed.

(** *** Tasks and futures *)

Lemma complete_futures_of urls futures j :
  futures_of' urls futures -> futures_of' urls (complete' j futures).
Proof.
  intros Hf. unfold complete.
  destruct (futures !! j) as [[url|o]|] eqn:E; try done.
  destruct (Forall2_lookup_r _ _ _ _ _ Hf E) as (url' & Hurl & [Heq|Heq]); [|done].
  injection Heq as ->.
  rewrite <- (list_insert_id urls j url' Hurl).
  apply Forall2_insert; [done|]. by right.
Qed.

Lemma complete_ready urls futures j :
  futures_of' urls futures -> (j < length urls)%nat ->
  exists o, complete' j futures !! j = Some (Ready o).
Proof.
  intros Hf Hj. unfold complete.
  pose proof (Forall2_length _ _ _ Hf) as Hlen.
  destruct (futures !! j) as [[url|o]|] eqn:E.
  - eexists. apply list_lookup_insert_eq. lia.
  - by exists o.
  - apply lookup_ge_None in E. lia.
Qed.

Lemma complete_keeps_ready futures i j o :
  futures !! i = Some (Ready o) -> complete' j futures !! i = Some (Ready o).
Proof.
  intros Hi. unfold complete.
  destruct (futures !! j) as [[url|o']|] eqn:E; try done.
  rewrite list_lookup_insert_ne; [done|]. intros ->. congruence.
Qed.

Lemma complete_all_finish urls futures j sched :
  futures_of' urls futures ->
  all_finish (length urls) futures (j :: sched) ->
  all_finish (length urls) (complete' j futures) sched.
Proof.
  intros Hf Hall i Hi.
  destruct (Hall i Hi) as [[->|Hin]%elem_of_cons|[o Ho]].
  - right. by apply (complete_ready urls).
  - by left.
  - right. exists o. by apply complete_keeps_ready.
Qed.

(** [get] returns what the fetch of the URL at its index gives,
    whatever the order in which the tasks finish. *)
Lemma future_get_fetch urls sched : forall futures i url,
  futures_of' urls futures -> all_finish (length urls) futures sched ->
  urls !! i = Some url ->
  exists futures' sched',
    future_get' i futures sched = Some (fetch' url, futures', sched')
    /\ futures_of' urls futures'
    /\ all_finish (length urls) futures' sched'.
Proof.
  induction sched as [|j sched IH]; intros futures i url Hf Hall Hurl.
  - pose proof (lookup_lt_Some _ _ _ Hurl) as Hi.
    destruct (Hall i Hi) as [Hin|[o Ho]]; [by apply elem_of_nil in Hin|].
    destruct (Forall2_lookup_l _ _ _ _ _ Hf Hurl) as (f & Hfi & [->| ->]); [congruence|].
    simpl. rewrite Hfi. eauto.
  - simpl. destruct (futures !! i) as [[url'|o]|] eqn:E.
    + apply IH; [by apply complete_futures_of|by apply complete_all_finish|done].
    + destruct (Forall2_lookup_l _ _ _ _ _ Hf Hurl) as (f & Hfi & [->| ->]); [congruence|].
      rewrite E in Hfi. injection Hfi as ->. eauto.
    + apply lookup_ge_None in E. pose proof (lookup_lt_Some _ _ _ Hurl).
      pose proof (Forall2_length _ _ _ Hf). lia.
Qed.

(** When every task finishes, the destructor of [futures] returns. *)
Lemma futures_destroyed_finish urls sched : forall futures,
  futures_of' urls futures -> all_finish (length urls) futures sched ->
  futures_destroyed curl_easy_init curl_easy_perform decode futures sched = true.
Proof.
  unfold futures_destroyed.
  induction sched as [|j sched IH]; intros futures Hf Hall; simpl.
  - apply forallb_forall. intros f [i Hi]%list_elem_of_In%list_elem_of_lookup.
    pose proof (lookup_lt_Some _ _ _ Hi) as Hlt.
    rewrite <- (Forall2_length _ _ _ Hf) in Hlt.
    destruct (Hall i Hlt) as [Hin|[o Ho]]; [by apply elem_of_nil in Hin|].
    rewrite Hi in Ho. by injection Ho as ->.
  - apply IH; [by apply complete_futures_of|by apply complete_all_finish].
Qed.

(** *** The second loop *)

Lemma poster_url_set_cover c m : poster_url (set_cover c m) = poster_url m.
Proof. done. Qed.

Lemma join_loop_attach rest : forall joined futures sched,
  futures_of' (poster_url <$> joined ++ rest) futures ->
  all_finish (length (joined ++ rest)) futures sched ->
  exists futures' sched',
    join_loop' (length rest) (length joined) (joined ++ rest) futures sched
    = Some (joined ++ (attach_covers' rest).1, (attach_covers' rest).2, futures', sched')
    /\ futures_of' (poster_url <$> joined ++ rest) futures'
    /\ all_finish (length (joined ++ rest)) futures' sched'.
Proof.
  induction rest as [|m rest IH]; intros joined futures sched Hf Hall.
  { simpl. eauto. }
  assert ((poster_url <$> joined ++ m :: rest) !! length joined = Some (poster_url m)) as Hurl.
  { rewrite list_lookup_fmap, list_lookup_middle; done. }
  rewrite <- (length_fmap poster_url) in Hall.
  destruct (future_get_fetch _ _ _ _ _ Hf Hall Hurl) as (futures' & sched' & Hget & Hf' & Hall').
  rewrite length_fmap in Hall'.
  simpl. rewrite Hget.
  destruct (fetch' (poster_url m)) as [image|e]; [|eauto].
  rewrite alter_app_r_alt by done. rewrite Nat.sub_diag. simpl.
  replace (S (length joined)) with (length (joined ++ [set_cover (normalize image) m]))
    by (rewrite length_app; simpl; lia).
  rewrite (cons_middle _ joined rest), app_assoc.
  destruct (IH (joined ++ [set_cover (normalize image) m]) futures' sched')
    as (futures'' & sched'' & Hjoin & Hf'' & Hall'').
  { rewrite <- app_assoc. simpl.
    by rewrite !fmap_app, !fmap_cons, poster_url_set_cover in *. }
  { rewrite <- app_assoc. simpl. by rewrite !length_app in *. }
  rewrite Hjoin. exists futures'', sched''.
  destruct (attach_covers' rest) as [rest' ending]. simpl.
  rewrite <- !app_assoc in *. simpl in *.
  split; [done|]. split.
  - by rewrite !fmap_app, !fmap_cons, poster_url_set_cover in *.
  - by rewrite !length_app in *.
Qed.

(** *** The whole function *)

(** The catalog does not depend on the order in which the fetches
    finish: with every schedule in which each of the tasks that were
    started does, the function returns what the two loops give when
    they are run one after the other. *)
Lemma loadMovies_positional connectionString conn result sched :
  pqxx_connection connectionString = Returns conn ->
  pqxx_exec conn select_movies = Returns result ->
  (forall i, (i < length (launched_rows' 0 result).1)%nat -> i ∈ sched) ->
  load connectionString sched = Some (loaded' result).
Proof.
  intros Hconn Hexec Hsched. unfold loadMoviesFromDatabase, loaded.
  rewrite Hconn, Hexec, launch_loop_rows. simpl.
  destruct (launched_rows' 0 result) as [rows launched]. simpl in *.
  assert (futures_of' (row_poster_link <$> rows) (Running ∘ row_poster_link <$> rows)) as Hf.
  { unfold futures_of. rewrite list_fmap_compose.
    apply Forall2_fmap_r, Forall_Forall2_diag, Forall_forall. intros url _. by left. }
  destruct launched as [[]|e].
  - destruct (join_loop_attach (entry_of <$> rows) [] (Running ∘ row_poster_link <$> rows) sched)
      as (futures' & sched' & Hjoin & Hf' & Hall').
    { simpl. by rewrite <- list_fmap_compose. }
    { intros i Hi. left. apply Hsched. simpl in Hi. by rewrite length_fmap in Hi. }
    simpl in Hjoin, Hf', Hall'. rewrite Hjoin.
    rewrite (futures_destroyed_finish _ _ _ Hf'); [|by rewrite length_fmap].
    destruct (attach_covers' (entry_of <$> rows)) as [movies ending].
    by destruct ending.
  - rewrite (futures_destroyed_finish (row_poster_link <$> rows)); [done|done|].
    intros i Hi. left. apply Hsched. by rewrite length_fmap in Hi.
Qed.

(** When no fetch raises, that is the catalog of the specification. *)
Lemma attach_covers_positional result :
  Forall (fun row => returned (fetch' (row_poster_link row)) = true) result ->
  attach_covers' (entry_of <$> result)
  = (positional_catalog curl_easy_init curl_easy_perform decode resample result, Returns tt).
Proof.
  induction 1 as [|row result Hrow _ IH]; [done|].
  rewrite fmap_cons. cbn [attach_covers entry_of poster_url].
  unfold positional_catalog in *. cbn [map]. unfold fetched at 1.
  destruct (fetch' (row_poster_link row)) as [image|]; [|done].
  by rewrite IH.
Qed.

(** C3: for every connection string, when opening the connection or
    running the query raises, [loadMoviesFromDatabase] returns, with
    the empty catalog, and has written one line to [std::cerr]: the
    word [Исключение: ] followed by the message of the exception.  It
    does not raise and does not wait: this holds under every
    schedule. *)
Theorem loadMovies_store_failure (connectionString : string) (sched : list nat)
    (e : std_exception) :
  pqxx_connection connectionString = Throws e
  \/ (exists conn, pqxx_connection connectionString = Returns conn
                /\ pqxx_exec conn select_movies = Throws e) ->
  load connectionString sched = Some ([], ["Исключение: " +:+ what e]).
Proof.
  unfold loadMoviesFromDatabase. intros [-> | (conn & -> & ->)]; done.
Qed.
End CatalogFacts.

Lemma loadMovies_store_failure_witness :
  example_load "dbname=image_rec host=db.example" [] =
  Some ([], ["Исключение: connection to server failed: Connection refused"]).
Proof.
  apply (loadMovies_store_failure example_curl_easy_init example_curl_easy_perform
           example_decode example_resample unit example_pqxx_connection example_pqxx_exec
           example_as_int example_as_string example_std_async
           "dbname=image_rec host=db.example" []
           (mkException "connection to server failed: Connection refused")).
  left. reflexivity.
Defined.

(** C6: the first of two rows has a poster URL that answers without a
    body, the second a poster that loads.  The cover of the second entry
    is left empty, in either order of completion, where its poster
    normalizes to a 67 by 98 image. *)
Theorem aborted_join_leaves_covers_empty :
  let connectionString := "dbname=image_rec user=postgres password=123123" in
  let expected :=
    Some (entry_of <$> example_rows,
          [report (mkException "(-215:Assertion failed) !buf.empty() in function 'imdecode_'")]) in
  example_load connectionString [0%nat; 1%nat] = expected
  /\ example_load connectionString [1%nat; 0%nat] = expected
  /\ cover <$> positional_catalog example_curl_easy_init example_curl_easy_perform
                 example_decode example_resample example_rows
     = [Mat_default; preprocessImage example_resample red_source]
  /\ Mat_empty (preprocessImage example_resample red_source) = false.
Proof. by vm_compute. Qed.

(** ** [calculateMeanRGB] *)

Lemma channel_sum_acc ch px : forall acc,
  fold_left (fun acc p => acc + Z.of_N (Byte.to_N (ch p))) px acc
  = acc + channel_sum ch px.
Proof.
  unfold channel_sum. induction px as [|p px IH]; intros acc; simpl; [lia|].
  rewrite IH, (IH (0 + _)). lia.
Qed.

Lemma channel_sum_cons ch p px :
  channel_sum ch (p :: px) = Z.of_N (Byte.to_N (ch p)) + channel_sum ch px.
Proof. unfold channel_sum at 1. simpl. apply channel_sum_acc. Qed.

Lemma channel_sum_perm ch px px' : px ≡ₚ px' -> channel_sum ch px = channel_sum ch px'.
Proof.
  induction 1 as [|p px px' _ IH|p p' px|px px' px'' _ IH _ IH']; [done| | |congruence].
  - by rewrite !channel_sum_cons, IH.
  - rewrite !channel_sum_cons. lia.
Qed.

(** The accumulator of [cv::mean] holds the total of the channel. *)
Lemma channel_sum_total ch image : channel_sum ch (data image) = channel_total ch image.
Proof.
  unfold channel_total. induction (data image) as [|p px IH]; [done|].
  by rewrite channel_sum_cons, IH.
Qed.

Lemma channel_sum_replicate ch n p :
  channel_sum ch (replicate n p) = Z.of_nat n * Z.of_N (Byte.to_N (ch p)).
Proof.
  unfold channel_sum.
  enough (forall acc,
    fold_left (fun acc p => acc + Z.of_N (Byte.to_N (ch p))) (replicate n p) acc
    = acc + Z.of_nat n * Z.of_N (Byte.to_N (ch p))) as Hgen by apply (Hgen 0).
  induction n as [|n IH]; intros acc; simpl replicate; simpl fold_left.
  - lia.
  - rewrite IH. lia.
Qed.

(** The mean of 6566 equal bytes is that byte. *)
Lemma canonical_mean_exact (c : byte) :
  f64_to_f32
    (f64_mul (f64_of_Z (6566 * Z.of_N (Byte.to_N c)))
             (f64_div (f64_of_Z 1) (f64_of_Z 6566)))
  = f32_of_byte c.
Proof. destruct c; vm_compute; reflexivity. Qed.

Lemma solid_cover_not_empty r g b : Mat_empty (solid_cover r g b) = false.
Proof. reflexivity. Qed.

Lemma solid_cover_length r g b : length (data (solid_cover r g b)) = Z.to_nat 6566.
Proof. unfold solid_cover. cbn [data]. by rewrite length_replicate. Qed.

(** C7: [calculateMeanRGB] yields the zero vector on an empty bitmap and
    otherwise, in the order red, green, blue, the mean of each channel
    over all pixels: the total of the channel over every pixel times
    the reciprocal of the number of pixels, taken in [double] and
    converted to [float].  On a cover of the canonical resolution
    whose channel total is [c] times the number of pixels, the mean is
    [c] exactly; so a cover of one colour has that colour as its mean.
    [recommendMovies] takes the vector of the query and those of the
    catalog from this one function. *)
Theorem calculateMeanRGB_channel_means (image : Mat) :
  (if Mat_empty image then
     calculateMeanRGB image = zero_vector
   else
     calculateMeanRGB image
     = mkVec3f (f64_to_f32 (channel_mean red image))
               (f64_to_f32 (channel_mean green image))
               (f64_to_f32 (channel_mean blue image)))
  /\ (forall c : byte,
        Mat_empty image = false -> pixel_count image = 6566 ->
        (channel_total red image = 6566 * Z.of_N (Byte.to_N c) ->
         v0 (calculateMeanRGB image) = f32_of_byte c)
        /\ (channel_total green image = 6566 * Z.of_N (Byte.to_N c) ->
            v1 (calculateMeanRGB image) = f32_of_byte c)
        /\ (channel_total blue image = 6566 * Z.of_N (Byte.to_N c) ->
            v2 (calculateMeanRGB image) = f32_of_byte c))
  /\ (forall r g b,
        calculateMeanRGB (solid_cover r g b)
        = mkVec3f (f32_of_byte r) (f32_of_byte g) (f32_of_byte b))
  /\ (forall query movie,
        distance_to query movie
        = cosineDistance (calculateMeanRGB (cover query)) (calculateMeanRGB (cover movie))).
Proof.
  assert (forall m, Mat_empty m = false ->
    calculateMeanRGB m
    = mkVec3f (f64_to_f32 (channel_mean red m)) (f64_to_f32 (channel_mean green m))
              (f64_to_f32 (channel_mean blue m))) as Hmean.
  { intros m He. unfold calculateMeanRGB, cv_mean, channel_mean, pixel_count, Mat_elems.
    rewrite He, !channel_sum_total. destruct (data m) as [|p px] eqn:E.
    - unfold Mat_empty in He. by rewrite E in He.
    - assert ((Z.of_nat (length (p :: px)) =? 0) = false) as ->; [|done].
      apply Z.eqb_neq. simpl length. lia. }
  assert (forall m ch c, pixel_count m = 6566 ->
    channel_total ch m = 6566 * Z.of_N (Byte.to_N c) ->
    f64_to_f32 (channel_mean ch m) = f32_of_byte c) as Hexact.
  { intros m ch c Hcount Htotal. unfold channel_mean.
    rewrite Hcount, Htotal. apply canonical_mean_exact. }
  split; [|split; [|split; [|done]]].
  - destruct (Mat_empty image) eqn:He; [by apply calculateMeanRGB_empty|by apply Hmean].
  - intros c He Hcount. rewrite (Hmean image He). cbn [v0 v1 v2].
    split; [|split]; intros Htotal; by apply Hexact.
  - intros r g b. rewrite Hmean by apply solid_cover_not_empty.
    assert (pixel_count (solid_cover r g b) = 6566) as Hcount.
    { unfold pixel_count. by rewrite solid_cover_length. }
    assert (forall ch, channel_total ch (solid_cover r g b)
                       = 6566 * Z.of_N (Byte.to_N (ch (mkPixel b g r)))) as Htotal.
    { intros ch. rewrite <- channel_sum_total. unfold solid_cover. cbn [data].
      by rewrite channel_sum_replicate. }
    by rewrite !(Hexact _ _ _ Hcount (Htotal _)).
Qed.
(** * Further properties of the code *)

(** ** [WriteCallback] and [loadImageFromURL] *)

Section FetchProperties.
Variable curl_easy_init : string -> bool.
Variable curl_easy_perform : string -> list (list byte) * Z.
Variable decode : list byte -> outcome (option Mat).

Abbreviation fetch_url := (loadImageFromURL curl_easy_init curl_easy_perform decode).

(** What the function makes of a transfer. *)
Lemma loadImageFromURL_body url :
  fetch_url url
  = if curl_easy_init url && ((curl_easy_perform url).2 =? CURLE_OK)
    then cv_imdecode decode (concat (curl_easy_perform url).1)
    else Returns Mat_default.
Proof.
  unfold loadImageFromURL. destruct (curl_easy_init url); [|done].
  destruct (curl_easy_perform url) as [chunks res]. simpl.
  by rewrite fold_WriteCallback.
Qed.

(** The images that are not empty. *)
Lemma loadImageFromURL_nonempty url image :
  fetch_url url = Returns image /\ Mat_empty image = false
  <-> curl_easy_init url = true /\ (curl_easy_perform url).2 = CURLE_OK
      /\ concat (curl_easy_perform url).1 <> []
      /\ decode (concat (curl_easy_perform url).1) = Returns (Some image)
      /\ Mat_empty image = false.
Proof.
  rewrite loadImageFromURL_body.
  destruct (curl_easy_init url); [|by split; [intros [[= <-] ?]|intros [? _]]].
  destruct (Z.eqb_spec (curl_easy_perform url).2 CURLE_OK) as [Hres|Hres];
    [|by split; [intros [[= <-] ?]|intros (_ & ? & _)]].
  simpl. unfold cv_imdecode.
  destruct (concat (curl_easy_perform url).1) as [|b body];
    [by split; [intros [? _]|intros (_ & _ & ? & _)]|].
  destruct (decode (b :: body)) as [[decoded|]|e]; simpl.
  - split; [by intros [[= ->] ?]|by intros (_ & _ & _ & [= ->] & ?)].
  - by split; [intros [[= <-] ?]|intros (_ & _ & _ & ? & _)].
  - by split; [intros [? _]|intros (_ & _ & _ & ? & _)].
Qed.

(** X1: the image does not depend on how libcurl cuts the body into
    chunks for [WriteCallback]: two transfers of a URL that end with the
    same code and deliver the same bytes give the same result. *)
Theorem loadImageFromURL_chunking (curl_easy_perform' : string -> list (list byte) * Z)
    (url : string) :
  (curl_easy_perform url).2 = (curl_easy_perform' url).2 ->
  concat (curl_easy_perform url).1 = concat (curl_easy_perform' url).1 ->
  fetch_url url = loadImageFromURL curl_easy_init curl_easy_perform' decode url.
Proof.
  unfold loadImageFromURL.
  destruct (curl_easy_perform url) as [chunks res], (curl_easy_perform' url) as [chunks' res'].
  simpl. intros -> E. by rewrite !fold_WriteCallback, E.
Qed.

(** X2: every exception of [loadImageFromURL] comes out of
    [cv::imdecode]: it raises exactly when a handle was handed out, the
    transfer ended with [CURLE_OK], and either no byte was delivered,
    which raises the assertion failure of [imdecode_] on an empty
    buffer, or [imdecode_] lets out an exception on the bytes
    delivered, which is the exception raised. *)
Theorem loadImageFromURL_raises_iff (url : string) (e : std_exception) :
  fetch_url url = Throws e <->
  curl_easy_init url = true /\ (curl_easy_perform url).2 = CURLE_OK
  /\ (concat (curl_easy_perform url).1 = []
      /\ e = mkException "(-215:Assertion failed) !buf.empty() in function 'imdecode_'"
      \/ concat (curl_easy_perform url).1 <> []
         /\ decode (concat (curl_easy_perform url).1) = Throws e).
Proof.
  rewrite loadImageFromURL_body.
  destruct (curl_easy_init url); [|by split; [|intros [? _]]].
  destruct (Z.eqb_spec (curl_easy_perform url).2 CURLE_OK) as [Hres|Hres];
    [|by split; [|intros (_ & ? & _)]].
  simpl. unfold cv_imdecode.
  destruct (concat (curl_easy_perform url).1) as [|b body].
  - split.
    + intros [= <-]. split; [done|]. split; [done|]. by left.
    + by intros (_ & _ & [[_ ->]|[? _]]).
  - destruct (decode (b :: body)) as [decoded|e'] eqn:Hdec; simpl.
    + split; [done|]. by intros (_ & _ & [[? _]|[_ ?]]).
    + split.
      * intros [= <-]. split; [done|]. split; [done|]. by right.
      * by intros (_ & _ & [[? _]|[_ [= ->]]]).
Qed.

(** X3: an image that is not empty is always the decoding of the whole
    body of a transfer that ended with [CURLE_OK]: never of a part of
    the body, never of a transfer that failed. *)
Theorem loadImageFromURL_image_is_decoded_body (url : string) (image : Mat) :
  fetch_url url = Returns image -> Mat_empty image = false ->
  curl_easy_init url = true /\ (curl_easy_perform url).2 = CURLE_OK
  /\ concat (curl_easy_perform url).1 <> []
  /\ decode (concat (curl_easy_perform url).1) = Returns (Some image).
Proof.
  intros Hfetch Hempty.
  destruct (proj1 (loadImageFromURL_nonempty url image)) as (? & ? & ? & ? & _); done.
Qed.

(** X4: when no handle is handed out, or the transfer ends with a code
    other than [CURLE_OK], the result is the empty image whatever bytes
    had arrived before the failure and whatever the codecs would make
    of them; nothing is raised and nothing is decoded. *)
Theorem loadImageFromURL_failed_transfer_is_empty (url : string) :
  curl_easy_init url = false \/ (curl_easy_perform url).2 <> CURLE_OK ->
  fetch_url url = Returns Mat_default.
Proof.
  unfold loadImageFromURL. intros [-> | Hres]; [done|].
  destruct (curl_easy_init url); [|done].
  destruct (curl_easy_perform url) as [chunks res]; simpl in *.
  by apply Z.eqb_neq in Hres as ->.
Qed.

End FetchProperties.

Lemma loadImageFromURL_chunking_witness :
  loadImageFromURL example_curl_easy_init example_curl_easy_perform example_decode
    "http://posters.example/red.png"
  = loadImageFromURL example_curl_easy_init unchunked_curl_easy_perform example_decode
      "http://posters.example/red.png".
Proof. apply loadImageFromURL_chunking; reflexivity. Defined.

Lemma loadImageFromURL_image_is_decoded_body_witness :
  example_curl_easy_init "http://posters.example/red.png" = true
  /\ (example_curl_easy_perform "http://posters.example/red.png").2 = CURLE_OK
  /\ concat (example_curl_easy_perform "http://posters.example/red.png").1 <> []
  /\ example_decode (concat (example_curl_easy_perform "http://posters.example/red.png").1)
     = Returns (Some red_source).
Proof.
  apply (loadImageFromURL_image_is_decoded_body example_curl_easy_init
           example_curl_easy_perform example_decode "http://posters.example/red.png" red_source);
    reflexivity.
Defined.

Lemma loadImageFromURL_failed_transfer_is_empty_witness :
  loadImageFromURL example_curl_easy_init example_curl_easy_perform example_decode
    "http://nowhere.example/x.png" = Returns Mat_default.
Proof.
  apply loadImageFromURL_failed_transfer_is_empty. right. vm_compute. discriminate.
Defined.

(** ** [calculateMeanRGB] and [cosineDistance] on any image *)

(** X5: the mean colour does not depend on where the pixels are: two
    images with the same pixels in another arrangement (a mirrored or a
    rotated poster) have the same mean colour. *)
Theorem calculateMeanRGB_permutation (m m' : Mat) :
  data m ≡ₚ data m' -> Mat_empty m = Mat_empty m' ->
  calculateMeanRGB m = calculateMeanRGB m'.
Proof.
  intros Hperm Hempty. unfold calculateMeanRGB, cv_mean, Mat_elems.
  rewrite Hempty. destruct (Mat_empty m'); [done|].
  by rewrite (Permutation_length Hperm), !(channel_sum_perm _ _ _ Hperm).
Qed.

Lemma calculateMeanRGB_permutation_witness :
  calculateMeanRGB two_tone = calculateMeanRGB two_tone_mirrored.
Proof.
  apply calculateMeanRGB_permutation; [apply Permutation_swap|reflexivity].
Defined.

Lemma channel_sum_black ch px :
  ch black = Byte.x00 -> Forall (fun p => p = black) px -> channel_sum ch px = 0.
Proof.
  intros Hch. induction 1 as [|p px -> _ IH]; [done|].
  by rewrite channel_sum_cons, IH, Hch.
Qed.

(** The mean colour of an image whose pixels are all black is degenerate. *)
Lemma calculateMeanRGB_black image :
  Forall (fun p => p = black) (data image) -> degenerate (calculateMeanRGB image).
Proof.
  intros Hblack. unfold calculateMeanRGB, cv_mean, Mat_elems.
  destruct (Mat_empty image); [done|].
  cbn [s0 s1 s2]. rewrite !channel_sum_black by done.
  change (f64_of_Z 0) with (S754_zero false).
  repeat split; apply zero_or_nan_f64_to_f32, zero_or_nan_mul_l.
Qed.

(** X6: [cosineDistance] has no guard against a vector without
    direction: when each component of one of the two vectors is a zero
    (of either sign) or NaN, the distance is NaN, whatever the other
    vector is. *)
Theorem cosineDistance_degenerate (a b : Vec3f) :
  degenerate b -> cosineDistance a b = S754_nan /\ cosineDistance b a = S754_nan.
Proof.
  intros Hb. split; [by apply cosineDistance_nan_r|by apply cosineDistance_nan_l].
Qed.

Lemma cosineDistance_degenerate_witness :
  cosineDistance grey (mkVec3f (S754_zero true) S754_nan (S754_zero false)) = S754_nan
  /\ cosineDistance (mkVec3f (S754_zero true) S754_nan (S754_zero false)) grey = S754_nan.
Proof. apply cosineDistance_degenerate. repeat split. Defined.

(** X7: a black poster is as good as none: a cover of any size whose
    pixels are all black has the distance NaN to every other cover and
    from every other cover. *)
Theorem black_cover_distance_is_nan (q m : Movie) :
  Forall (fun p => p = black) (data (cover m)) ->
  distance_to q m = S754_nan /\ distance_to m q = S754_nan.
Proof.
  intros Hblack%calculateMeanRGB_black. unfold distance_to.
  split; [by apply cosineDistance_nan_r|by apply cosineDistance_nan_l].
Qed.

Lemma black_cover_distance_is_nan_witness :
  distance_to query_red movie_black = S754_nan /\ distance_to movie_black query_red = S754_nan.
Proof.
  apply black_cover_distance_is_nan. simpl. repeat constructor.
Defined.
(** ** [recommendMovies] on any catalog *)

Lemma ranked_elem std_sort q cat x :
  conforming_sort std_sort -> all_numbers (map (distance_to q) cat) = true ->
  x ∈ ranked std_sort q cat -> x.1 = distance_to q x.2 /\ x.2 ∈ cat /\ is_nan x.1 = false.
Proof.
  intros Hsort Hnum Hx. rewrite <- (ranked_perm std_sort Hsort q cat Hnum) in Hx.
  split; [by apply (distances_of_elem q cat)|]. split.
  - rewrite <- (distances_of_snd q cat). by apply list_elem_of_fmap_2.
  - apply (all_numbers_fst (distances_of q cat)); [|done]. by rewrite distances_of_fst.
Qed.

(** When no two distances are equal, the sorted vector is the same for
    every implementation of [std::sort] and every order of the catalog. *)
Lemma ranked_unique std_sort std_sort' q cat cat' :
  conforming_sort std_sort -> conforming_sort std_sort' ->
  all_numbers (map (distance_to q) cat) = true ->
  all_distinct (map (distance_to q) cat) = true ->
  cat ≡ₚ cat' ->
  ranked std_sort q cat = ranked std_sort' q cat'.
Proof.
  intros Hsort Hsort' Hnum Hdis Hperm.
  assert (all_numbers (map (distance_to q) cat') = true) as Hnum'.
  { rewrite <- Hnum. symmetry. apply all_numbers_perm.
    change (distance_to q <$> cat ≡ₚ distance_to q <$> cat'). by apply fmap_Permutation. }
  assert (distances_of q cat ≡ₚ distances_of q cat') as Hd.
  { unfold distances_of. by apply fmap_Permutation. }
  apply (StronglySorted_unique_strong (fun x y => by_distance y x = false)).
  - intros x1 x2 H1 H2 H12 H21.
    rewrite <- (ranked_perm std_sort Hsort) in H1 by done.
    rewrite <- (ranked_perm std_sort' Hsort'), <- Hd in H2 by done.
    apply (all_distinct_equiv (distances_of q cat)); try done.
    by rewrite distances_of_fst.
  - by apply ranked_ascending.
  - by apply ranked_ascending.
  - by rewrite <- (ranked_perm std_sort Hsort), <- (ranked_perm std_sort' Hsort'), Hd.
Qed.

Lemma recommendMovies_submseteq std_sort q cat topN :
  conforming_sort std_sort -> all_numbers (map (distance_to q) cat) = true ->
  recommendMovies std_sort q cat topN ⊆+ cat.
Proof.
  intros Hsort Hnum. rewrite recommendMovies_take by done.
  etrans; [apply submseteq_take|].
  by rewrite <- (ranked_snd_perm std_sort Hsort q cat Hnum).
Qed.

(** X8: asking for more recommendations only extends the list: for
    [topN <= topN'] the result for [topN] is the beginning of the
    result for [topN'], whatever [std::sort] does. *)
Theorem recommendMovies_more_extends (std_sort : sort_function) (q : Movie)
    (cat : list Movie) (topN topN' : Z) :
  topN <= topN' ->
  recommendMovies std_sort q cat topN `prefix_of` recommendMovies std_sort q cat topN'.
Proof.
  intros Hle. rewrite !recommendMovies_push_back.
  set (c := static_cast_int _). set (l := (ranked std_sort q cat).*2).
  replace (take (Z.to_nat (Z.min topN c)) l)
    with (take (Z.to_nat (Z.min topN c)) (take (Z.to_nat (Z.min topN' c)) l)).
  - apply prefix_take.
  - rewrite take_take. f_equal. lia.
Qed.

Lemma recommendMovies_more_extends_witness :
  recommendMovies gnu_sort query_red [movie_blue; movie_orange; movie_red] 1
  `prefix_of` recommendMovies gnu_sort query_red [movie_blue; movie_orange; movie_red] 2.
Proof. apply recommendMovies_more_extends. lia. Defined.

(** X9: when no distance is NaN, the movies returned are entries of the
    catalog, none of them more often than the catalog holds it; and when
    [topN] is at least the size of the catalog (below 2^31), they are
    the whole catalog in another order. *)
Theorem recommendMovies_catalog_entries (std_sort : sort_function) (q : Movie)
    (cat : list Movie) (topN : Z) :
  conforming_sort std_sort ->
  all_numbers (map (distance_to q) cat) = true ->
  recommendMovies std_sort q cat topN ⊆+ cat
  /\ (Z.of_nat (length cat) <= topN -> Z.of_nat (length cat) < 2^31 ->
      recommendMovies std_sort q cat topN ≡ₚ cat).
Proof.
  intros Hsort Hnum. split; [by apply recommendMovies_submseteq|].
  intros Hall Hlen. rewrite recommendMovies_take by done.
  rewrite static_cast_int_small by lia.
  rewrite take_ge; [by rewrite <- ranked_snd_perm|].
  rewrite length_fmap, ranked_length by done. lia.
Qed.

Lemma recommendMovies_catalog_entries_witness :
  recommendMovies gnu_sort query_red [movie_blue; movie_orange; movie_red] 5
  ⊆+ [movie_blue; movie_orange; movie_red]
  /\ recommendMovies gnu_sort query_red [movie_blue; movie_orange; movie_red] 5
     ≡ₚ [movie_blue; movie_orange; movie_red].
Proof.
  destruct (recommendMovies_catalog_entries gnu_sort query_red
              [movie_blue; movie_orange; movie_red] 5) as [Hsub Hall].
  - apply gnu_sort_conforming.
  - vm_compute. reflexivity.
  - split; [exact Hsub|]. apply Hall; simpl; lia.
Defined.

(** X10: when no distance is NaN, the movies returned are the nearest
    of the catalog: the catalog is the result together with the entries
    left out, and no entry left out is nearer to the query than a movie
    returned. *)
Theorem recommendMovies_nearest (std_sort : sort_function) (q : Movie)
    (cat : list Movie) (topN : Z) :
  conforming_sort std_sort ->
  all_numbers (map (distance_to q) cat) = true ->
  exists rest,
    cat ≡ₚ recommendMovies std_sort q cat topN ++ rest
    /\ forall r m, r ∈ recommendMovies std_sort q cat topN -> m ∈ rest ->
         f_le (distance_to q r) (distance_to q m) = true.
Proof.
  intros Hsort Hnum. rewrite recommendMovies_take by done.
  set (k := Z.to_nat _).
  exists (drop k (ranked std_sort q cat).*2). split.
  { by rewrite take_drop, <- ranked_snd_perm. }
  rewrite <- fmap_take, <- fmap_drop.
  intros r m [x [-> Hx]]%list_elem_of_fmap [y [-> Hy]]%list_elem_of_fmap.
  pose proof (ranked_ascending std_sort Hsort q cat Hnum) as Hasc.
  rewrite <- (take_drop k (ranked std_sort q cat)) in Hasc.
  pose proof (StronglySorted_app_1_elem_of _ _ _ _ _ Hasc Hx Hy) as Hxy.
  simpl in Hxy. unfold by_distance in Hxy.
  destruct (ranked_elem std_sort q cat x Hsort Hnum) as (Ex & _ & Nx).
  { by apply (subseteq_take k). }
  destruct (ranked_elem std_sort q cat y Hsort Hnum) as (Ey & _ & Ny).
  { by apply (subseteq_drop k). }
  rewrite <- Ex, <- Ey. by apply f_le_not_lt.
Qed.

Lemma recommendMovies_nearest_witness :
  exists rest,
    [movie_blue; movie_orange; movie_red]
    ≡ₚ recommendMovies gnu_sort query_red [movie_blue; movie_orange; movie_red] 2 ++ rest
    /\ forall r m,
         r ∈ recommendMovies gnu_sort query_red [movie_blue; movie_orange; movie_red] 2 ->
         m ∈ rest -> f_le (distance_to query_red r) (distance_to query_red m) = true.
Proof.
  apply recommendMovies_nearest; [apply gnu_sort_conforming|vm_compute; reflexivity].
Defined.

(** X11: when no distance is NaN and no two distances are equal, the
    result depends neither on the order of the catalog nor on the
    implementation of [std::sort]. *)
Theorem recommendMovies_catalog_order_irrelevant (std_sort std_sort' : sort_function)
    (q : Movie) (cat cat' : list Movie) (topN : Z) :
  conforming_sort std_sort -> conforming_sort std_sort' ->
  all_numbers (map (distance_to q) cat) = true ->
  all_distinct (map (distance_to q) cat) = true ->
  cat ≡ₚ cat' ->
  recommendMovies std_sort q cat topN = recommendMovies std_sort' q cat' topN.
Proof.
  intros Hsort Hsort' Hnum Hdis Hperm. rewrite !recommendMovies_push_back.
  by rewrite (ranked_unique std_sort std_sort' q cat cat').
Qed.

Lemma recommendMovies_catalog_order_irrelevant_witness :
  recommendMovies gnu_sort query_red [movie_blue; movie_orange; movie_red] 2
  = recommendMovies (@reversed_insertion_sort) query_red [movie_red; movie_blue; movie_orange] 2.
Proof.
  apply recommendMovies_catalog_order_irrelevant.
  - apply gnu_sort_conforming.
  - apply reversed_insertion_sort_conforming.
  - vm_compute. reflexivity.
  - vm_compute. reflexivity.
  - apply (Permutation_app_comm [movie_blue; movie_orange] [movie_red]).
Defined.

Lemma static_cast_int_le n : 0 <= n -> static_cast_int n <= n.
Proof.
  intros Hn. unfold static_cast_int.
  pose proof (Z.mod_le (n + 2^31) (2^32)). lia.
Qed.

(** X12: the last loop stays inside the vector: whatever [topN] is,
    however many movies the catalog has and whatever [std::sort] has
    done, every index it reads is below [distances.size()]; so the
    result has exactly as many movies as the loop has iterations, and
    never more than [topN]. *)
Theorem recommendMovies_loop_in_range (std_sort : sort_function) (q : Movie)
    (cat : list Movie) (topN : Z) :
  let distances := ranked std_sort q cat in
  let bound := Z.min topN (static_cast_int (Z.of_nat (length distances))) in
  (forall i, (i < Z.to_nat bound)%nat -> is_Some (distances !! i))
  /\ length (recommendMovies std_sort q cat topN) = Z.to_nat bound
  /\ Z.of_nat (length (recommendMovies std_sort q cat topN)) <= Z.max 0 topN.
Proof.
  intros distances bound.
  assert (Z.to_nat bound <= length distances)%nat as Hbound.
  { pose proof (static_cast_int_le (Z.of_nat (length distances))). lia. }
  assert (length (recommendMovies std_sort q cat topN) = Z.to_nat bound) as Hlen.
  { rewrite recommendMovies_push_back, length_take, length_fmap.
    fold distances. fold bound. lia. }
  split; [|split; [done|]].
  - intros i Hi. apply lookup_lt_is_Some_2. lia.
  - rewrite Hlen. lia.
Qed.
(** ** [loadMoviesFromDatabase] under any schedule *)

Lemma preprocessImage_empty resample image :
  Mat_empty (preprocessImage resample image) = Mat_empty image.
Proof.
  unfold preprocessImage. destruct (Mat_empty image) eqn:E; [done|].
  by apply cv_resize_not_empty.
Qed.

Lemma preprocessImage_shape resample image : normalized_shape (preprocessImage resample image).
Proof.
  unfold preprocessImage. destruct (Mat_empty image); [by left|right].
  split; [done|]. split; [done|]. split.
  - by rewrite cv_resize_data_length.
  - by apply cv_resize_not_empty.
Qed.

Section CatalogProperties.
Variable curl_easy_init : string -> bool.
Variable curl_easy_perform : string -> list (list byte) * Z.
Variable decode : list byte -> outcome (option Mat).
Variable resample : Mat -> Size -> Z -> Z -> Pixel.
Variable connection : Type.
Variable pqxx_connection : string -> outcome connection.
Variable pqxx_exec : connection -> string -> outcome (list pqxx_row).
Variable as_int : pqxx_field -> outcome Z.
Variable as_string : pqxx_field -> outcome string.
Variable std_async : nat -> outcome unit.

Abbreviation fetch' := (loadImageFromURL curl_easy_init curl_easy_perform decode).
Abbreviation normalize := (preprocessImage resample).
Abbreviation complete' := (complete curl_easy_init curl_easy_perform decode).
Abbreviation future_get' := (future_get curl_easy_init curl_easy_perform decode).
Abbreviation join_loop' := (join_loop curl_easy_init curl_easy_perform decode resample).
Abbreviation futures_of' := (futures_of curl_easy_init curl_easy_perform decode).
Abbreviation attach_covers' := (attach_covers curl_easy_init curl_easy_perform decode resample).
Abbreviation positional_catalog' :=
  (positional_catalog curl_easy_init curl_easy_perform decode resample).
Abbreviation read_row' := (read_row as_int as_string).
Abbreviation launch_loop' := (launch_loop as_int as_string std_async).
Abbreviation launched_rows' := (launched_rows as_int as_string std_async).
Abbreviation loaded' :=
  (loaded curl_easy_init curl_easy_perform decode resample as_int as_string std_async).
Abbreviation load :=
  (loadMoviesFromDatabase curl_easy_init curl_easy_perform decode resample
     connection pqxx_connection pqxx_exec as_int as_string std_async).
(** The futures after the tasks of a schedule have finished. *)
Abbreviation finish := (fold_left (fun fs j => complete' j fs)).

(** *** Waiting *)

(** [get] returns the fetch of the URL of its own task, and lets only
    tasks of the schedule finish. *)
Lemma future_get_sound urls i url : forall sched futures o futures' sched',
  futures_of' urls futures -> urls !! i = Some url ->
  future_get' i futures sched = Some (o, futures', sched') ->
  o = fetch' url /\ futures_of' urls futures'
  /\ exists finished, sched = finished ++ sched' /\ futures' = finish finished futures.
Proof.
  assert (forall futures o, futures_of' urls futures -> urls !! i = Some url ->
            futures !! i = Some (Ready o) -> o = fetch' url) as Hready.
  { intros futures o Hf Hurl Hi.
    destruct (Forall2_lookup_l _ _ _ _ _ Hf Hurl) as (f & Hfi & [->| ->]); congruence. }
  induction sched as [|j sched IH]; intros futures o futures' sched' Hf Hurl; simpl.
  - destruct (futures !! i) as [[url'|o']|] eqn:E; try done.
    intros [= <- <- <-]. split; [by apply (Hready futures)|]. split; [done|]. by exists [].
  - destruct (futures !! i) as [[url'|o']|] eqn:E.
    + intros Hget.
      destruct (IH _ _ _ _ (complete_futures_of _ _ _ urls futures j Hf) Hurl Hget)
        as (-> & Hf' & finished & -> & ->).
      split; [done|]. split; [done|]. by exists (j :: finished).
    + intros [= <- <- <-]. split; [by apply (Hready futures)|]. split; [done|]. by exists [].
    + apply lookup_ge_None in E. pose proof (lookup_lt_Some _ _ _ Hurl).
      pose proof (Forall2_length _ _ _ Hf). lia.
Qed.

(** Whenever the second loop ends, it has attached the covers one after
    the other, up to the first fetch that raised. *)
Lemma join_loop_sound rest : forall joined futures sched movies ending futures' sched',
  futures_of' (poster_url <$> joined ++ rest) futures ->
  join_loop' (length rest) (length joined) (joined ++ rest) futures sched
  = Some (movies, ending, futures', sched') ->
  movies = joined ++ (attach_covers' rest).1 /\ ending = (attach_covers' rest).2
  /\ futures_of' (poster_url <$> joined ++ rest) futures'
  /\ exists finished, sched = finished ++ sched' /\ futures' = finish finished futures.
Proof.
  induction rest as [|m rest IH]; intros joined futures sched movies ending futures' sched' Hf.
  { simpl. intros [= <- <- <- <-]. do 3 (split; [done|]). by exists []. }
  assert ((poster_url <$> joined ++ m :: rest) !! length joined = Some (poster_url m)) as Hurl.
  { rewrite list_lookup_fmap, list_lookup_middle; done. }
  simpl.
  destruct (future_get' (length joined) futures sched) as [[[o futures1] sched1]|] eqn:Hget;
    [|done].
  destruct (future_get_sound _ _ _ _ _ _ _ _ Hf Hurl Hget) as (-> & Hf1 & finished1 & -> & ->).
  destruct (fetch' (poster_url m)) as [image|e].
  2:{ intros [= <- <- <- <-]. do 3 (split; [done|]). by exists finished1. }
  rewrite alter_app_r_alt by done. rewrite Nat.sub_diag. simpl.
  replace (S (length joined)) with (length (joined ++ [set_cover (normalize image) m]))
    by (rewrite length_app; simpl; lia).
  rewrite (cons_middle _ joined rest), app_assoc.
  intros Hjoin. apply IH in Hjoin as (-> & -> & Hf' & finished2 & -> & ->).
  2:{ rewrite <- app_assoc. simpl.
      by rewrite !fmap_app, !fmap_cons, poster_url_set_cover in *. }
  destruct (attach_covers' rest) as [rest' ending']. simpl.
  rewrite <- !app_assoc. simpl.
  split; [done|]. split; [done|]. split.
  - rewrite <- app_assoc in Hf'. simpl in Hf'.
    by rewrite !fmap_app, !fmap_cons, poster_url_set_cover in *.
  - exists (finished1 ++ finished2). by rewrite fold_left_app, app_assoc.
Qed.

(** A task that is not in the schedule keeps running. *)
Lemma finish_running sched : forall futures i url,
  futures !! i = Some (Running url) -> i ∉ sched ->
  finish sched futures !! i = Some (Running url).
Proof.
  induction sched as [|j sched IH]; intros futures i url Hi Hsched; [done|].
  apply not_elem_of_cons in Hsched as [Hij Hsched]. simpl.
  apply IH; [|done]. unfold complete.
  destruct (futures !! j) as [[url'|o]|]; try done.
  by rewrite list_lookup_insert_ne.
Qed.

(** When the destructor of [futures] returns, every task that was
    started is in the schedule. *)
Lemma destroyed_all_scheduled (rows : list Row) finished sched :
  futures_destroyed curl_easy_init curl_easy_perform decode
    (finish finished (Running ∘ row_poster_link <$> rows)) sched = true ->
  forall i, (i < length rows)%nat -> i ∈ finished ++ sched.
Proof.
  intros Hdestroyed i Hi.
  destruct (decide (i ∈ finished ++ sched)) as [|Hnot]; [done|exfalso].
  destruct (lookup_lt_is_Some_2 rows i Hi) as [row Hrow].
  pose proof (finish_running (finished ++ sched) (Running ∘ row_poster_link <$> rows)
                i (row_poster_link row)) as Hrun.
  rewrite list_lookup_fmap, Hrow in Hrun. specialize (Hrun eq_refl Hnot).
  unfold futures_destroyed in Hdestroyed. rewrite <- fold_left_app in Hdestroyed.
  rewrite forallb_forall in Hdestroyed.
  by specialize (Hdestroyed _ (proj1 (list_elem_of_In _ _) (list_elem_of_lookup_2 _ _ _ Hrun))).
Qed.

(** *** The first loop *)

(** The rows that the loop gets through are the conversions of the
    first rows of the result, and their tasks were started. *)
Lemma launched_rows_read result : forall n,
  Forall2 (fun raw row => read_row' raw = Returns row)
    (take (length (launched_rows' n result).1) result) (launched_rows' n result).1.
Proof.
  induction result as [|raw result IH]; intros n; [constructor|].
  cbn [launched_rows].
  destruct (read_row' raw) as [row|e] eqn:Hread; [|constructor].
  simpl. destruct (std_async n) as [[]|e]; [|constructor].
  simpl. specialize (IH (S n)).
  destruct (launched_rows' (S n) result) as [rows ending]. by constructor.
Qed.

(** When the loop gets through every row, no exception ended it, and
    the other way round. *)
Lemma launched_rows_all result : forall n,
  length (launched_rows' n result).1 = length result
  <-> exists u, (launched_rows' n result).2 = Returns u.
Proof.
  induction result as [|raw result IH]; intros n; [by split; [exists tt|]|].
  cbn [launched_rows].
  destruct (read_row' raw) as [row|e]; [|by split; [|intros [? ?]]].
  simpl. destruct (std_async n) as [[]|e]; [|by split; [|intros [? ?]]].
  simpl. specialize (IH (S n)).
  destruct (launched_rows' (S n) result) as [rows ending]. simpl in *.
  rewrite <- IH. split; [by intros [= ->]|by intros ->].
Qed.

(** Rows that all convert, on a system that starts every thread. *)
Lemma launched_rows_returns result rows : forall n,
  Forall2 (fun raw row => read_row' raw = Returns row) result rows ->
  (forall i, (i < length result)%nat -> std_async (n + i) = Returns tt) ->
  launched_rows' n result = (rows, Returns tt).
Proof.
  intros n Hread. revert n.
  induction Hread as [|raw row result rows Hraw _ IH]; intros n Hasync; [done|].
  cbn [launched_rows]. rewrite Hraw. simpl.
  rewrite <- (Nat.add_0_r n) at 1. rewrite Hasync by (simpl; lia). simpl.
  rewrite IH; [done|]. intros i Hi.
  replace (S n + i)%nat with (n + S i)%nat by lia. apply Hasync. simpl. lia.
Qed.

(** *** The whole function *)

(** Whenever the function returns, it returns what the two loops give
    when they are run one after the other, and every task that was
    started has finished. *)
Lemma loadMovies_sequential connectionString conn result sched out :
  pqxx_connection connectionString = Returns conn ->
  pqxx_exec conn select_movies = Returns result ->
  load connectionString sched = Some out ->
  out = loaded' result
  /\ forall i, (i < length (launched_rows' 0 result).1)%nat -> i ∈ sched.
Proof.
  intros Hconn Hexec. unfold loadMoviesFromDatabase, loaded.
  rewrite Hconn, Hexec, launch_loop_rows. simpl.
  destruct (launched_rows' 0 result) as [rows launched]. simpl.
  destruct launched as [[]|e].
  - destruct (join_loop' _ _ _ _ _) as [[[[movies ending] futures'] sched']|] eqn:Hjoin;
      [|done].
    apply (join_loop_sound (entry_of <$> rows) []) in Hjoin
      as (-> & -> & Hf' & finished & -> & ->).
    2:{ simpl. unfold futures_of. rewrite <- list_fmap_compose.
        apply Forall2_fmap, Forall_Forall2_diag, Forall_forall. intros row _. by left. }
    destruct (futures_destroyed _ _ _ _ _) eqn:Hdestroyed; [|done].
    intros Hout. split.
    + simpl. by destruct (attach_covers' (entry_of <$> rows)) as [movies [|e]]; injection Hout.
    + by apply destroyed_all_scheduled.
  - destruct (futures_destroyed _ _ _ _ _) eqn:Hdestroyed; [|done].
    intros [= <-]. split; [done|].
    by apply (destroyed_all_scheduled rows []).
Qed.

Lemma attach_covers_app before rest :
  Forall (fun row => returned (fetch' (row_poster_link row)) = true) before ->
  attach_covers' ((entry_of <$> before) ++ rest)
  = (positional_catalog' before ++ (attach_covers' rest).1, (attach_covers' rest).2).
Proof.
  induction 1 as [|row before Hrow _ IH]; [simpl; by destruct (attach_covers' rest)|].
  rewrite fmap_cons. cbn [app attach_covers entry_of poster_url].
  unfold positional_catalog in *. cbn [map]. unfold fetched at 1.
  destruct (fetch' (row_poster_link row)) as [image|]; [|done].
  by rewrite IH.
Qed.

Lemma attach_covers_returns result u :
  (attach_covers' (entry_of <$> result)).2 = Returns u ->
  Forall (fun row => returned (fetch' (row_poster_link row)) = true) result.
Proof.
  induction result as [|row result IH]; [done|].
  rewrite fmap_cons. cbn [attach_covers entry_of poster_url].
  destruct (fetch' (row_poster_link row)) as [image|] eqn:E; [|done].
  destruct (attach_covers' (entry_of <$> result)) as [rest' ending]. simpl.
  intros ->. constructor; [by rewrite E|by apply IH].
Qed.

Lemma attach_covers_of_row result :
  Forall2 of_row (attach_covers' (entry_of <$> result)).1 result.
Proof.
  induction result as [|row result IH]; [constructor|].
  rewrite fmap_cons. cbn [attach_covers entry_of poster_url].
  destruct (fetch' (row_poster_link row)) as [image|].
  - destruct (attach_covers' (entry_of <$> result)) as [rest' ending]. simpl.
    by constructor.
  - simpl. constructor; [done|].
    apply Forall2_fmap_l, Forall_Forall2_diag, Forall_forall. by intros r _.
Qed.

Lemma attach_covers_shape movies :
  Forall (fun m => normalized_shape (cover m)) movies ->
  Forall (fun m => normalized_shape (cover m)) (attach_covers' movies).1.
Proof.
  induction 1 as [|m movies Hm Hmovies IH]; [constructor|].
  cbn [attach_covers].
  destruct (fetch' (poster_url m)) as [image|]; [|by constructor].
  destruct (attach_covers' movies) as [rest' ending]. simpl.
  constructor; [apply preprocessImage_shape|done].
Qed.

(** Rows that convert and whose tasks start, before a row on which
    the loop raises. *)
Lemma launched_rows_raises before raw after rows e : forall n,
  Forall2 (fun row converted => read_row' row = Returns converted) before rows ->
  (forall i, (i < length before)%nat -> std_async (n + i) = Returns tt) ->
  read_row' raw = Throws e
  \/ (exists converted, read_row' raw = Returns converted)
     /\ std_async (n + length before) = Throws e ->
  launched_rows' n (before ++ raw :: after) = (rows, Throws e).
Proof.
  intros n Hread. revert n.
  induction Hread as [|row converted before rows Hrow _ IH]; intros n Hasync Hraw.
  - cbn [app launched_rows].
    destruct Hraw as [-> | [[converted ->] Hlaunch]]; [done|].
    simpl in *. by rewrite Nat.add_0_r in Hlaunch; rewrite Hlaunch.
  - cbn [app launched_rows]. rewrite Hrow. simpl.
    rewrite <- (Nat.add_0_r n) at 1. rewrite Hasync by (simpl; lia). simpl.
    rewrite (IH (S n)); [done| |].
    + intros i Hi. replace (S n + i)%nat with (n + S i)%nat by lia. apply Hasync. simpl. lia.
    + replace (S n + length before)%nat with (n + length (row :: before))%nat
        by (simpl; lia).
      done.
Qed.


(** The rows whose tasks are started: those before the first row on
    which a conversion or the launch raises. *)
Lemma launched_rows_started started rest rows :
  Forall2 (fun row converted => read_row' row = Returns converted) started rows ->
  (forall n, (n < length started)%nat -> std_async n = Returns tt) ->
  match rest with
  | [] => True
  | raw :: _ =>
      returned (read_row' raw) = false \/ returned (std_async (length started)) = false
  end ->
  (launched_rows' 0 (started ++ rest)).1 = rows.
Proof.
  intros Hread Hasync Hrest. destruct rest as [|raw after].
  - rewrite app_nil_r. by rewrite (launched_rows_returns started rows 0 Hread Hasync).
  - destruct (read_row' raw) as [converted|e] eqn:Hraw.
    + destruct Hrest as [?|Hlaunch]; [done|].
      destruct (std_async (length started)) as [u|e] eqn:Hlaunch'; [done|].
      rewrite (launched_rows_raises started raw after rows e 0 Hread Hasync); [done|].
      right. split; [by exists converted|done].
    + rewrite (launched_rows_raises started raw after rows e 0 Hread Hasync); [done|].
      by left.
Qed.

(** X14: the function returns if and only if every fetch that was
    started finishes: one poster whose transfer never ends keeps
    [loadMoviesFromDatabase] from returning, and this also when the
    first loop or an earlier fetch has raised, since the destructor of
    [futures] waits for every task.  The fetches started are those of
    the rows before the first row on which a conversion or the launch
    raises: of all rows, when there is no such row. *)
Theorem loadMovies_waits_for_every_fetch (connectionString : string) (conn : connection)
    (started rest : list pqxx_row) (rows : list Row) (sched : list nat) :
  pqxx_connection connectionString = Returns conn ->
  pqxx_exec conn select_movies = Returns (started ++ rest) ->
  Forall2 (fun row converted => read_row' row = Returns converted) started rows ->
  (forall n, (n < length started)%nat -> std_async n = Returns tt) ->
  match rest with
  | [] => True
  | raw :: _ =>
      returned (read_row' raw) = false \/ returned (std_async (length started)) = false
  end ->
  load connectionString sched = None
  <-> exists i, (i < length started)%nat /\ i ∉ sched.
Proof.
  intros Hconn Hexec Hread Hasync Hrest.
  pose proof (launched_rows_started started rest rows Hread Hasync Hrest) as Hrows.
  rewrite (Forall2_length _ _ _ Hread). split.
  - intros Hnone.
    destruct (decide (Forall (fun i => i ∈ sched) (seq 0 (length rows)))) as [Hall|Hnot].
    + rewrite (loadMovies_positional _ _ _ _ _ _ _ _ _ _ _ _ _ _ Hconn Hexec) in Hnone;
        [done|].
      rewrite Hrows. intros i Hi. rewrite Forall_forall in Hall. apply Hall, elem_of_seq. lia.
    + apply not_Forall_Exists in Hnot; [|apply _].
      apply Exists_exists in Hnot as (i & Hi%elem_of_seq & Hsched).
      exists i. split; [lia|done].
  - intros (i & Hi & Hsched).
    destruct (load connectionString sched) as [out|] eqn:E; [|done].
    apply (loadMovies_sequential _ _ _ _ _ Hconn Hexec) in E as [_ Hall].
    rewrite Hrows in Hall. by apply Hall in Hi.
Qed.

(** The catalog holds the movies of the rows that the first loop got
    through. *)
Lemma loaded_of_row result :
  Forall2 of_row (loaded' result).1 (launched_rows' 0 result).1.
Proof.
  unfold loaded. destruct (launched_rows' 0 result) as [rows [[]|e]]; simpl.
  - pose proof (attach_covers_of_row rows) as Hrows.
    by destruct (attach_covers' (entry_of <$> rows)).
  - apply Forall2_fmap_l, Forall_Forall2_diag, Forall_forall. by intros r _.
Qed.

(** X15: the catalog returned holds, in the order of the rows, one
    movie for each row of a beginning of the query result, with the id,
    the title, the genre and the poster URL that the conversions of its
    row give; this also when either loop was left by an exception.  The
    beginning is the whole result when nothing was written to
    [std::cerr]: rows are missing only behind a conversion or a launch
    that raised. *)
Theorem loadMovies_keeps_rows (connectionString : string) (conn : connection)
    (result : list pqxx_row) (sched : list nat) (movies : list Movie) (lines : list string) :
  pqxx_connection connectionString = Returns conn ->
  pqxx_exec conn select_movies = Returns result ->
  load connectionString sched = Some (movies, lines) ->
  exists rows,
    Forall2 (fun row converted => read_row' row = Returns converted)
      (take (length rows) result) rows
    /\ Forall2 of_row movies rows
    /\ (lines = [] -> length rows = length result).
Proof.
  intros Hconn Hexec Hload.
  apply (loadMovies_sequential _ _ _ _ _ Hconn Hexec) in Hload as [Hout _].
  exists (launched_rows' 0 result).1. split; [apply launched_rows_read|]. split.
  - replace movies with (loaded' result).1 by (by rewrite <- Hout). apply loaded_of_row.
  - intros ->. apply launched_rows_all. revert Hout. unfold loaded.
    destruct (launched_rows' 0 result) as [rows [[]|e]]; simpl; [by exists tt|done].
Qed.

(** X16: every cover of a catalog returned is the empty image or an
    image of 98 rows and 67 columns that is not empty: no cover of
    another size reaches [recommendMovies]. *)
Theorem loadMovies_cover_shapes (connectionString : string) (sched : list nat)
    (movies : list Movie) (lines : list string) :
  load connectionString sched = Some (movies, lines) ->
  Forall (fun m => normalized_shape (cover m)) movies.
Proof.
  destruct (pqxx_connection connectionString) as [conn|e] eqn:Hconn.
  2:{ unfold loadMoviesFromDatabase. rewrite Hconn. by intros [= <- _]. }
  destruct (pqxx_exec conn select_movies) as [result|e] eqn:Hexec.
  2:{ unfold loadMoviesFromDatabase. rewrite Hconn, Hexec. by intros [= <- _]. }
  intros Hload.
  apply (loadMovies_sequential _ _ _ _ _ Hconn Hexec) in Hload as [Hout _].
  replace movies with (loaded' result).1 by (by rewrite <- Hout).
  assert (forall rows : list Row, Forall (fun m => normalized_shape (cover m)) (entry_of <$> rows))
    as Hentries.
  { intros rows. apply Forall_fmap, Forall_forall. intros row _. by left. }
  unfold loaded. destruct (launched_rows' 0 result) as [rows [[]|e]]; simpl; [|done].
  pose proof (attach_covers_shape _ (Hentries rows)) as Hshape.
  by destruct (attach_covers' (entry_of <$> rows)).
Qed.

(** X17: a run that writes nothing to [std::cerr] has loaded the whole
    catalog: the store answered, every field of every row was
    converted, no fetch raised, and each movie has the normalized
    result of fetching its own poster. *)
Theorem loadMovies_silent_is_complete (connectionString : string) (sched : list nat)
    (movies : list Movie) :
  load connectionString sched = Some (movies, []) ->
  exists conn result rows,
    pqxx_connection connectionString = Returns conn
    /\ pqxx_exec conn select_movies = Returns result
    /\ Forall2 (fun row converted => read_row' row = Returns converted) result rows
    /\ Forall (fun row => returned (fetch' (row_poster_link row)) = true) rows
    /\ movies = positional_catalog' rows.
Proof.
  destruct (pqxx_connection connectionString) as [conn|e] eqn:Hconn.
  2:{ unfold loadMoviesFromDatabase. by rewrite Hconn. }
  destruct (pqxx_exec conn select_movies) as [result|e] eqn:Hexec.
  2:{ unfold loadMoviesFromDatabase. by rewrite Hconn, Hexec. }
  intros Hload. exists conn, result, (launched_rows' 0 result).1.
  split; [done|]. split; [done|].
  apply (loadMovies_sequential _ _ _ _ _ Hconn Hexec) in Hload as [Hout _].
  pose proof (launched_rows_read result 0) as Hread.
  pose proof (launched_rows_all result 0) as Hall.
  revert Hout Hread Hall. unfold loaded.
  destruct (launched_rows' 0 result) as [rows [[]|e]]; simpl; [|done].
  intros Hout Hread Hall.
  rewrite (proj2 Hall), take_ge in Hread by (done || by exists tt).
  split; [done|].
  destruct (attach_covers' (entry_of <$> rows)) as [movies' ending] eqn:Hattach.
  destruct ending as [u|e]; [|done]. injection Hout as ->.
  assert (Forall (fun row => returned (fetch' (row_poster_link row)) = true) rows) as Hreturned.
  { apply (attach_covers_returns rows u). by rewrite Hattach. }
  split; [done|].
  rewrite (attach_covers_positional _ _ _ _ _ Hreturned) in Hattach. by injection Hattach.
Qed.

(** X18: when every row is converted and its task started, the fetch
    of one row is the first to raise, and every fetch finishes, the
    movies of the rows before it have their covers, the movie of that
    row and the movies of all rows after it are left with the empty
    cover, whatever their posters are, and the line
    [Исключение: ] followed by the message of the exception is
    written to [std::cerr]. *)
Theorem loadMovies_first_raise_ends_join (connectionString : string) (conn : connection)
    (result : list pqxx_row) (before after : list Row) (row : Row) (e : std_exception)
    (sched : list nat) :
  pqxx_connection connectionString = Returns conn ->
  pqxx_exec conn select_movies = Returns result ->
  Forall2 (fun raw converted => read_row' raw = Returns converted)
    result (before ++ row :: after) ->
  (forall n, (n < length result)%nat -> std_async n = Returns tt) ->
  Forall (fun row => returned (fetch' (row_poster_link row)) = true) before ->
  fetch' (row_poster_link row) = Throws e ->
  (forall i, (i < length result)%nat -> i ∈ sched) ->
  load connectionString sched
  = Some (positional_catalog' before ++ (entry_of <$> row :: after),
          ["Исключение: " +:+ what e]).
Proof.
  intros Hconn Hexec Hread Hasync Hbefore Hrow Hsched.
  pose proof (launched_rows_returns result _ 0 Hread Hasync) as Hlaunched.
  rewrite (loadMovies_positional _ _ _ _ _ _ _ _ _ _ _ _ _ _ Hconn Hexec).
  2:{ rewrite Hlaunched. simpl. rewrite <- (Forall2_length _ _ _ Hread). apply Hsched. }
  unfold loaded. rewrite Hlaunched.
  rewrite fmap_app, (attach_covers_app _ _ Hbefore), fmap_cons.
  cbn [attach_covers entry_of poster_url]. by rewrite Hrow.
Qed.

(** X26: when a conversion of a row raises, or the thread of its task
    cannot be started, the first loop ends at that row: once the tasks
    of the rows before it have finished, the function returns the
    movies of those rows, each with the empty cover although its poster
    was fetched, no movie for that row or for any row after it, and the
    line [Исключение: ] followed by the message of the exception on
    [std::cerr]. *)
Theorem loadMovies_first_loop_exception (connectionString : string) (conn : connection)
    (before after : list pqxx_row) (raw : pqxx_row) (rows : list Row) (e : std_exception)
    (sched : list nat) :
  pqxx_connection connectionString = Returns conn ->
  pqxx_exec conn select_movies = Returns (before ++ raw :: after) ->
  Forall2 (fun row converted => read_row' row = Returns converted) before rows ->
  (forall n, (n < length before)%nat -> std_async n = Returns tt) ->
  read_row' raw = Throws e
  \/ (exists converted, read_row' raw = Returns converted)
     /\ std_async (length before) = Throws e ->
  (forall i, (i < length before)%nat -> i ∈ sched) ->
  load connectionString sched
  = Some (entry_of <$> rows, ["Исключение: " +:+ what e]).
Proof.
  intros Hconn Hexec Hread Hasync Hraw Hsched.
  pose proof (launched_rows_raises before raw after rows e 0 Hread Hasync Hraw) as Hlaunched.
  rewrite (loadMovies_positional _ _ _ _ _ _ _ _ _ _ _ _ _ _ Hconn Hexec).
  2:{ rewrite Hlaunched. simpl. rewrite <- (Forall2_length _ _ _ Hread). apply Hsched. }
  unfold loaded. by rewrite Hlaunched.
Qed.

End CatalogProperties.


Lemma loadMovies_waits_for_every_fetch_witness :
  null_load "dbname=image_rec user=postgres password=123123" [1%nat] = None
  <-> exists i, (i < length (take 1 null_result))%nat /\ i ∉ [1%nat].
Proof.
  apply (loadMovies_waits_for_every_fetch example_curl_easy_init example_curl_easy_perform
           example_decode example_resample unit example_pqxx_connection null_pqxx_exec
           example_as_int example_as_string example_std_async
           "dbname=image_rec user=postgres password=123123" tt
           (take 1 null_result) (drop 1 null_result)
           [mkRow 7 "Crimson" "drama" "http://posters.example/red.png"] [1%nat]).
  - reflexivity.
  - reflexivity.
  - repeat constructor.
  - reflexivity.
  - left. reflexivity.
Defined.

Lemma loadMovies_keeps_rows_witness :
  exists rows,
    Forall2 (fun row converted => read_row example_as_int example_as_string row = Returns converted)
      (take (length rows) null_result) rows
    /\ Forall2 of_row
         [mkMovie 7 "Crimson" "drama" "http://posters.example/red.png" Mat_default] rows
    /\ (["Исключение: Attempt to convert null to std::string."] = [] ->
        length rows = length null_result).
Proof.
  apply (loadMovies_keeps_rows example_curl_easy_init example_curl_easy_perform
           example_decode example_resample unit example_pqxx_connection null_pqxx_exec
           example_as_int example_as_string example_std_async
           "dbname=image_rec user=postgres password=123123" tt null_result [0%nat]).
  - reflexivity.
  - reflexivity.
  - by vm_compute.
Defined.

Lemma loadMovies_cover_shapes_witness :
  Forall (fun m => normalized_shape (cover m))
    (default [] (fst <$> mixed_load "dbname=image_rec user=postgres password=123123"
                           [2%nat; 1%nat; 0%nat])).
Proof.
  apply (loadMovies_cover_shapes example_curl_easy_init example_curl_easy_perform
           example_decode example_resample unit example_pqxx_connection mixed_pqxx_exec
           example_as_int example_as_string example_std_async
           "dbname=image_rec user=postgres password=123123" [2%nat; 1%nat; 0%nat] _
           (default [] (snd <$> mixed_load "dbname=image_rec user=postgres password=123123"
                                  [2%nat; 1%nat; 0%nat]))).
  by vm_compute.
Defined.

Lemma loadMovies_silent_is_complete_witness :
  exists conn result rows,
    example_pqxx_connection "dbname=image_rec user=postgres password=123123" = Returns conn
    /\ poster_pqxx_exec conn select_movies = Returns result
    /\ Forall2 (fun row converted =>
                  read_row example_as_int example_as_string row = Returns converted) result rows
    /\ Forall (fun row =>
                 returned (loadImageFromURL example_curl_easy_init example_curl_easy_perform
                             example_decode (row_poster_link row)) = true) rows
    /\ positional_catalog example_curl_easy_init example_curl_easy_perform example_decode
         example_resample poster_rows
       = positional_catalog example_curl_easy_init example_curl_easy_perform example_decode
           example_resample rows.
Proof.
  apply (loadMovies_silent_is_complete example_curl_easy_init example_curl_easy_perform
           example_decode example_resample unit example_pqxx_connection poster_pqxx_exec
           example_as_int example_as_string example_std_async
           "dbname=image_rec user=postgres password=123123" [0%nat; 1%nat]).
  by vm_compute.
Defined.

Lemma loadMovies_first_raise_ends_join_witness :
  mixed_load "dbname=image_rec user=postgres password=123123" [2%nat; 0%nat; 1%nat]
  = Some (positional_catalog example_curl_easy_init example_curl_easy_perform example_decode
            example_resample (take 1 mixed_rows)
          ++ (entry_of <$> drop 1 mixed_rows),
          ["Исключение: (-215:Assertion failed) !buf.empty() in function 'imdecode_'"]).
Proof.
  apply (loadMovies_first_raise_ends_join example_curl_easy_init example_curl_easy_perform
           example_decode example_resample unit example_pqxx_connection mixed_pqxx_exec
           example_as_int example_as_string example_std_async
           "dbname=image_rec user=postgres password=123123" tt mixed_result
           (take 1 mixed_rows) (drop 2 mixed_rows)
           (mkRow 1 "Moved" "drama" "http://posters.example/moved.png")
           (mkException "(-215:Assertion failed) !buf.empty() in function 'imdecode_'")).
  - reflexivity.
  - reflexivity.
  - repeat constructor.
  - reflexivity.
  - repeat constructor.
  - reflexivity.
  - intros i Hi. simpl in Hi. destruct i as [|[|[|i]]]; [set_solver..|lia].
Defined.

Lemma loadMovies_first_loop_exception_witness :
  null_load "dbname=image_rec user=postgres password=123123" [0%nat]
  = Some ([mkMovie 7 "Crimson" "drama" "http://posters.example/red.png" Mat_default],
          ["Исключение: Attempt to convert null to std::string."]).
Proof.
  apply (loadMovies_first_loop_exception example_curl_easy_init example_curl_easy_perform
           example_decode example_resample unit example_pqxx_connection null_pqxx_exec
           example_as_int example_as_string example_std_async
           "dbname=image_rec user=postgres password=123123" tt
           (take 1 null_result)
           (drop 2 null_result)
           (mk_pqxx_row (Text "9") (Text "Untitled") Null (Text "http://posters.example/red.png"))
           [mkRow 7 "Crimson" "drama" "http://posters.example/red.png"]
           (mkException "Attempt to convert null to std::string.")).
  - reflexivity.
  - reflexivity.
  - repeat constructor.
  - reflexivity.
  - left. reflexivity.
  - intros i Hi. simpl in Hi. destruct i as [|i]; [set_solver|lia].
Defined.
(** ** [main] *)

Section MainProperties.
Variable curl_easy_init : string -> bool.
Variable curl_easy_perform : string -> list (list byte) * Z.
Variable decode : list byte -> outcome (option Mat).
Variable resample : Mat -> Size -> Z -> Z -> Pixel.
Variable connection : Type.
Variable pqxx_connection : string -> outcome connection.
Variable pqxx_exec : connection -> string -> outcome (list pqxx_row).
Variable as_int : pqxx_field -> outcome Z.
Variable as_string : pqxx_field -> outcome string.
Variable std_async : nat -> outcome unit.
Variable std_sort : sort_function.

Abbreviation fetch' := (loadImageFromURL curl_easy_init curl_easy_perform decode).
Abbreviation normalize := (preprocessImage resample).
Abbreviation read_row' := (read_row as_int as_string).
Abbreviation load_catalog :=
  (loadMoviesFromDatabase curl_easy_init curl_easy_perform decode resample
     connection pqxx_connection pqxx_exec as_int as_string std_async
     "dbname=image_rec user=postgres password=123123").
Abbreviation main' :=
  (main curl_easy_init curl_easy_perform decode resample
     connection pqxx_connection pqxx_exec as_int as_string std_async std_sort).

(** The runs of [main] on an input of two lines or more. *)
Lemma main_runs userTitle userPosterURL rest sched :
  main' (userTitle :: userPosterURL :: rest) sched
  = match load_catalog sched with
    | None => None
    | Some (movies, lines) =>
        match fetch' userPosterURL with
        | Throws e => Some (mkRun [title_prompt; poster_prompt] lines (Terminate e))
        | Returns image =>
            if Mat_empty image then
              Some (mkRun [title_prompt; poster_prompt] (lines ++ [user_image_error]) (Exit 1))
            else
              Some (mkRun
                      ([title_prompt; poster_prompt; recommended_header]
                       ++ map recommendation_line
                            (recommendMovies std_sort
                               (mkMovie 0 userTitle "N/A" userPosterURL (normalize image))
                               movies 5))
                      lines (Exit 0))
        end
    end.
Proof.
  unfold main. destruct (load_catalog sched) as [[movies lines]|]; [|done].
  cbn [getline]. destruct (fetch' userPosterURL) as [image|e]; [|done].
  rewrite preprocessImage_empty. by destruct (Mat_empty image).
Qed.

(** X19: the program ends with status 0 exactly when the transfer of
    the poster the user named ends with [CURLE_OK] and its body decodes
    to an image that is not empty; neither the catalog, nor a failure of
    the store, nor the title has a part in it. *)
Theorem main_exit_0_iff (userTitle userPosterURL : string) (rest : list string)
    (sched : list nat) (run : Run) :
  main' (userTitle :: userPosterURL :: rest) sched = Some run ->
  ended run = Exit 0
  <-> exists image,
        curl_easy_init userPosterURL = true
        /\ (curl_easy_perform userPosterURL).2 = CURLE_OK
        /\ concat (curl_easy_perform userPosterURL).1 <> []
        /\ decode (concat (curl_easy_perform userPosterURL).1) = Returns (Some image)
        /\ Mat_empty image = false.
Proof.
  rewrite main_runs. destruct (load_catalog sched) as [[movies lines]|]; [|done].
  setoid_rewrite <- loadImageFromURL_nonempty.
  destruct (fetch' userPosterURL) as [image|e].
  - destruct (Mat_empty image) eqn:Hempty; intros [= <-]; simpl.
    + split; [done|]. intros (image' & [= <-] & ?). congruence.
    + split; [intros _|done]. by exists image.
  - intros [= <-]. simpl. split; [done|]. by intros (image' & [=] & _).
Qed.

(** X20: [main] does not catch what [loadImageFromURL] raises: when
    the transfer of the user's poster ends with [CURLE_OK] and no byte,
    the program is ended by the exception of [cv::imdecode], after both
    prompts, with no message of its own and no recommendation. *)
Theorem main_uncaught_exception (userTitle userPosterURL : string) (rest : list string)
    (sched : list nat) (movies : list Movie) (lines : list string) :
  load_catalog sched = Some (movies, lines) ->
  curl_easy_init userPosterURL = true ->
  (curl_easy_perform userPosterURL).2 = CURLE_OK ->
  concat (curl_easy_perform userPosterURL).1 = [] ->
  main' (userTitle :: userPosterURL :: rest) sched
  = Some (mkRun [title_prompt; poster_prompt] lines
            (Terminate
               (mkException "(-215:Assertion failed) !buf.empty() in function 'imdecode_'"))).
Proof.
  intros Hload Hinit Hres Hbody.
  by rewrite main_runs, Hload, loadImageFromURL_body, Hinit, Hres, Hbody.
Qed.

(** X21: when the user's poster cannot be had (no handle, a transfer
    that fails, or a body that decodes to no image), the program writes
    its error line after whatever the loading of the catalog has
    written to [std::cerr], prints nothing but the two prompts and ends
    with status 1: the catalog it has loaded is not used. *)
Theorem main_user_poster_failure (userTitle userPosterURL : string) (rest : list string)
    (sched : list nat) (movies : list Movie) (lines : list string) :
  load_catalog sched = Some (movies, lines) ->
  curl_easy_init userPosterURL = false
  \/ (curl_easy_perform userPosterURL).2 <> CURLE_OK
  \/ (concat (curl_easy_perform userPosterURL).1 <> []
      /\ exists decoded,
           decode (concat (curl_easy_perform userPosterURL).1) = Returns decoded
           /\ Mat_empty (default Mat_default decoded) = true) ->
  main' (userTitle :: userPosterURL :: rest) sched
  = Some (mkRun [title_prompt; poster_prompt] (lines ++ [user_image_error]) (Exit 1)).
Proof.
  intros Hload Hfail. rewrite main_runs, Hload, loadImageFromURL_body.
  destruct Hfail as [-> | [Hres | (Hbody & decoded & Hdec & Hempty)]]; [done| |].
  - apply Z.eqb_neq in Hres as ->. by rewrite andb_false_r.
  - destruct (_ && _); [|done]. unfold cv_imdecode.
    destruct (concat (curl_easy_perform userPosterURL).1); [done|].
    rewrite Hdec. simpl. by rewrite Hempty.
Qed.

Lemma recommendMovies_nil q topN :
  conforming_sort std_sort -> recommendMovies std_sort q [] topN = [].
Proof.
  intros Hsort. rewrite recommendMovies_push_back.
  assert (length (ranked std_sort q []) = 0%nat) as E by (by rewrite ranked_length).
  destruct (ranked std_sort q []); [|done]. apply take_nil.
Qed.

Lemma recommendMovies_length q cat :
  conforming_sort std_sort -> Z.of_nat (length cat) < 2^31 ->
  length (recommendMovies std_sort q cat 5) = Nat.min 5 (length cat).
Proof.
  intros Hsort Hlen. rewrite recommendMovies_take by done.
  rewrite static_cast_int_small by lia.
  rewrite length_take, length_fmap, ranked_length by done. lia.
Qed.

(** The query enters the ranking by its cover only. *)
Lemma recommendMovies_query_cover q q' cat topN :
  cover q = cover q' ->
  recommendMovies std_sort q cat topN = recommendMovies std_sort q' cat topN.
Proof. intros E. unfold recommendMovies, ranked, distances_of. by rewrite E. Qed.

(** X22: when the user's poster loads, the program prints the two
    prompts, the header and one line for each of [min(5, |catalog|)]
    movies, adds nothing to [std::cerr] and ends with status 0. *)
Theorem main_prints_recommendations (userTitle userPosterURL : string) (rest : list string)
    (sched : list nat) (movies : list Movie) (lines : list string) (image : Mat) :
  conforming_sort std_sort ->
  load_catalog sched = Some (movies, lines) ->
  Z.of_nat (length movies) < 2^31 ->
  fetch' userPosterURL = Returns image -> Mat_empty image = false ->
  exists recommendations,
    main' (userTitle :: userPosterURL :: rest) sched
    = Some (mkRun ([title_prompt; poster_prompt; recommended_header]
                   ++ map recommendation_line recommendations)
              lines (Exit 0))
    /\ length recommendations = Nat.min 5 (length movies).
Proof.
  intros Hsort Hload Hlen Hfetch Hempty. rewrite main_runs, Hload, Hfetch, Hempty.
  eexists. split; [done|]. by apply recommendMovies_length.
Qed.

(** X23: a failure of the store does not stop the program and does not
    change its status: the exception is reported on [std::cerr], the
    user is still asked for a title and a poster, the poster is still
    fetched, and when it loads the header is printed with no movie
    under it and the program ends with status 0. *)
Theorem main_store_failure (userTitle userPosterURL : string) (rest : list string)
    (sched : list nat) (e : std_exception) (image : Mat) :
  conforming_sort std_sort ->
  pqxx_connection "dbname=image_rec user=postgres password=123123" = Throws e
  \/ (exists conn,
        pqxx_connection "dbname=image_rec user=postgres password=123123" = Returns conn
        /\ pqxx_exec conn select_movies = Throws e) ->
  fetch' userPosterURL = Returns image -> Mat_empty image = false ->
  main' (userTitle :: userPosterURL :: rest) sched
  = Some (mkRun [title_prompt; poster_prompt; recommended_header] [report e] (Exit 0)).
Proof.
  intros Hsort Hstore Hfetch Hempty. rewrite main_runs.
  assert (load_catalog sched = Some ([], [report e])) as ->.
  { unfold loadMoviesFromDatabase. by destruct Hstore as [-> | (conn & -> & ->)]. }
  by rewrite Hfetch, Hempty, recommendMovies_nil.
Qed.

(** X24: the title the user types, and every line of input after the
    poster URL, have no influence on the run: the title is stored in
    the query movie and never read. *)
Theorem main_ignores_title (userTitle userTitle' userPosterURL : string)
    (rest rest' : list string) (sched : list nat) (run : option Run) :
  main' (userTitle :: userPosterURL :: rest) sched = run ->
  main' (userTitle' :: userPosterURL :: rest') sched = run.
Proof.
  intros <-.
  rewrite !main_runs. destruct (load_catalog sched) as [[movies lines]|]; [|done].
  destruct (fetch' userPosterURL) as [image|e]; [|done].
  destruct (Mat_empty image); [done|].
  by rewrite (recommendMovies_query_cover
                (mkMovie 0 userTitle "N/A" userPosterURL (normalize image))
                (mkMovie 0 userTitle' "N/A" userPosterURL (normalize image))).
Qed.

(** X25: when no distance is NaN, every line printed under the header
    is the line of a row of the store: its title, its genre and its
    poster URL are those that the conversions of one row of the query
    result give. *)
Theorem main_prints_store_rows (userTitle userPosterURL : string) (rest : list string)
    (sched : list nat) (conn : connection) (result : list pqxx_row)
    (movies : list Movie) (lines : list string) (image : Mat) (run : Run) :
  conforming_sort std_sort ->
  pqxx_connection "dbname=image_rec user=postgres password=123123" = Returns conn ->
  pqxx_exec conn select_movies = Returns result ->
  load_catalog sched = Some (movies, lines) ->
  fetch' userPosterURL = Returns image ->
  all_numbers
    (map (distance_to (mkMovie 0 userTitle "N/A" userPosterURL (normalize image))) movies)
  = true ->
  main' (userTitle :: userPosterURL :: rest) sched = Some run ->
  Forall (fun line => exists row converted,
            row ∈ result /\ read_row' row = Returns converted
            /\ line = recommendation_line (entry_of converted))
    (drop 3 (cout run)).
Proof.
  intros Hsort Hconn Hexec Hload Hfetch Hnum. rewrite main_runs, Hload, Hfetch.
  destruct (Mat_empty image); intros [= <-]; [constructor|].
  cbn [cout app drop]. apply Forall_fmap, Forall_forall. intros m Hm.
  assert (m ∈ movies) as Hin.
  { apply (elem_of_submseteq _ _ _ Hm). by apply recommendMovies_submseteq. }
  apply (loadMovies_sequential _ _ _ _ _ _ _ _ _ _ _ _ _ _ _ Hconn Hexec) in Hload as [Hout _].
  apply list_elem_of_lookup in Hin as [i Hi].
  pose proof (loaded_of_row curl_easy_init curl_easy_perform decode resample
                as_int as_string std_async result) as Hrows.
  rewrite <- Hout in Hrows. simpl in Hrows.
  destruct (Forall2_lookup_l _ _ _ _ _ Hrows Hi)
    as (converted & Hconverted & Hid & Htitle & Hgenre & Hurl).
  destruct (Forall2_lookup_r _ _ _ _ _ (launched_rows_read as_int as_string std_async result 0)
              Hconverted) as (row & Hrow & Hread).
  exists row, converted. split.
  { apply lookup_take_Some in Hrow as [Hrow _]. by apply list_elem_of_lookup_2 in Hrow. }
  split; [done|].
  unfold recommendation_line. simpl. by rewrite Htitle, Hgenre, Hurl.
Qed.

End MainProperties.

Lemma main_exit_0_iff_witness :
  ended crimson_run = Exit 0
  <-> exists image,
        example_curl_easy_init "http://posters.example/red.png" = true
        /\ (example_curl_easy_perform "http://posters.example/red.png").2 = CURLE_OK
        /\ concat (example_curl_easy_perform "http://posters.example/red.png").1 <> []
        /\ example_decode (concat (example_curl_easy_perform "http://posters.example/red.png").1)
           = Returns (Some image)
        /\ Mat_empty image = false.
Proof.
  apply (main_exit_0_iff example_curl_easy_init example_curl_easy_perform example_decode
           example_resample unit example_pqxx_connection red_pqxx_exec
           example_as_int example_as_string example_std_async gnu_sort
           "Film" "http://posters.example/red.png" [] [0%nat]).
  by vm_compute.
Defined.

Lemma main_uncaught_exception_witness :
  example_main ["Film"; "http://posters.example/moved.png"] [0%nat; 1%nat]
  = Some (mkRun [title_prompt; poster_prompt]
            [report (mkException "(-215:Assertion failed) !buf.empty() in function 'imdecode_'")]
            (Terminate
               (mkException "(-215:Assertion failed) !buf.empty() in function 'imdecode_'"))).
Proof.
  apply (main_uncaught_exception example_curl_easy_init example_curl_easy_perform
           example_decode example_resample unit example_pqxx_connection example_pqxx_exec
           example_as_int example_as_string example_std_async gnu_sort
           "Film" "http://posters.example/moved.png" [] [0%nat; 1%nat]
           (entry_of <$> example_rows)).
  - by vm_compute.
  - reflexivity.
  - reflexivity.
  - reflexivity.
Defined.

Lemma main_user_poster_failure_witness :
  red_main ["Film"; "http://nowhere.example/x.png"] [0%nat]
  = Some (mkRun [title_prompt; poster_prompt] [user_image_error] (Exit 1)).
Proof.
  apply (main_user_poster_failure example_curl_easy_init example_curl_easy_perform
           example_decode example_resample unit example_pqxx_connection red_pqxx_exec
           example_as_int example_as_string example_std_async gnu_sort
           "Film" "http://nowhere.example/x.png" [] [0%nat]
           (positional_catalog example_curl_easy_init example_curl_easy_perform
              example_decode example_resample red_rows) []).
  - by vm_compute.
  - right. left. vm_compute. discriminate.
Defined.

Lemma main_prints_recommendations_witness :
  exists recommendations,
    red_main red_input [0%nat]
    = Some (mkRun ([title_prompt; poster_prompt; recommended_header]
                   ++ map recommendation_line recommendations)
              [] (Exit 0))
    /\ length recommendations = 1%nat.
Proof.
  apply (main_prints_recommendations example_curl_easy_init example_curl_easy_perform
           example_decode example_resample unit example_pqxx_connection red_pqxx_exec
           example_as_int example_as_string example_std_async gnu_sort
           "Film" "http://posters.example/red.png" [] [0%nat]
           (positional_catalog example_curl_easy_init example_curl_easy_perform
              example_decode example_resample red_rows) [] red_source).
  - apply gnu_sort_conforming.
  - by vm_compute.
  - by vm_compute.
  - reflexivity.
  - reflexivity.
Defined.

Lemma main_store_failure_witness :
  refused_main red_input []
  = Some (mkRun [title_prompt; poster_prompt; recommended_header]
            [report (mkException "connection to server failed: Connection refused")]
            (Exit 0)).
Proof.
  apply (main_store_failure example_curl_easy_init example_curl_easy_perform
           example_decode example_resample unit refused_pqxx_connection example_pqxx_exec
           example_as_int example_as_string example_std_async gnu_sort
           "Film" "http://posters.example/red.png" [] []
           (mkException "connection to server failed: Connection refused") red_source).
  - apply gnu_sort_conforming.
  - left. reflexivity.
  - reflexivity.
  - reflexivity.
Defined.

Lemma main_ignores_title_witness :
  red_main ["Another film"; "http://posters.example/red.png"; "more"] [0%nat]
  = Some crimson_run.
Proof.
  apply (main_ignores_title example_curl_easy_init example_curl_easy_perform example_decode
           example_resample unit example_pqxx_connection red_pqxx_exec
           example_as_int example_as_string example_std_async gnu_sort
           "Film" "Another film" "http://posters.example/red.png" [] ["more"] [0%nat]).
  by vm_compute.
Defined.

Lemma main_prints_store_rows_witness :
  Forall (fun line => exists row converted,
            row ∈ red_result /\ read_row example_as_int example_as_string row = Returns converted
            /\ line = recommendation_line (entry_of converted))
    (drop 3 (cout crimson_run)).
Proof.
  apply (main_prints_store_rows example_curl_easy_init example_curl_easy_perform
           example_decode example_resample unit example_pqxx_connection red_pqxx_exec
           example_as_int example_as_string example_std_async gnu_sort
           "Film" "http://posters.example/red.png" [] [0%nat] tt red_result
           (positional_catalog example_curl_easy_init example_curl_easy_perform
              example_decode example_resample red_rows) [] red_source).
  - apply gnu_sort_conforming.
  - reflexivity.
  - reflexivity.
  - by vm_compute.
  - reflexivity.
  - by vm_compute.
  - by vm_compute.
Defined.
